(** * RL_based_SDC: a shallow embedding of the driving simulator

    The development follows [RL_based_SDC.py]: the kinematic model [Car],
    the geometry kernel ([distance], [cal_crosspoint], [is_online],
    [crossing]), the obstacle map [MAP], the ranging fan [LiDAR], the
    rollout [episode] and the objective of [update_policy].

    Numbers.  The program computes with NumPy and Torch floating-point
    numbers; in the main model every number is a real number of the
    Standard Library and [+], [*], [/], [sqrt], [cos], [sin], [log] are
    the exact operations.  Comparisons ([==], [<], [<=], [>=]) are the
    decidable comparisons of the reals.  The NaN padding marker of the
    padded tensors is [None] in an [option R] entry.  A property of the
    main model that rests on an exact cancellation is a property of the
    program in exact arithmetic only, and is stated as such.

    Rounding.  Two parts of the program compare or cancel rounded
    numbers, and are modelled a second time with the arithmetic the
    program uses: the geometry kernel in binary64 (module [F64], on the
    primitive floating-point numbers, which are IEEE 754 binary64 with
    rounding to nearest even as NumPy's [float64]), and the baseline of
    [update_policy] in binary32 (module [F32], on [SpecFloat] with 24
    bits of precision, as Torch's [float32] tensors).

    Exceptions.  Python exceptions are values of [error]; a function that
    can raise returns a [result].  [OutOfFuel] is not an exception of
    the program: it marks a loop cut off by the bound on its iterations. *)

From Stdlib Require Import Floats QArith.
From Stdlib Require Import Reals Lra Lia List Bool ZArith.
Import ListNotations.

Local Open Scope R_scope.

(** ** Results and errors *)

Inductive error : Type :=
| UnboundLocalError
| IndexError
| ZeroDivisionError
| AttributeError
| OutOfFuel.

Inductive result (A : Type) : Type :=
| Ok (a : A)
| Err (e : error).

Arguments Ok {A} a.
Arguments Err {A} e.

Definition bind {A B : Type} (m : result A) (k : A -> result B) : result B :=
  match m with
  | Ok a => k a
  | Err e => Err e
  end.

Notation "x <- m ;; k" := (bind m (fun x => k))
  (at level 61, m at next level, right associativity).
Notation "' p <- m ;; k" := (bind m (fun p => k))
  (at level 61, p pattern, m at next level, right associativity).

(** ** Comparisons of numbers as booleans *)

Definition Reqb (a b : R) : bool := if Req_dec_T a b then true else false.
Definition Rltb (a b : R) : bool := if Rlt_dec a b then true else false.
Definition Rleb (a b : R) : bool := if Rle_dec a b then true else false.
Definition Rgeb (a b : R) : bool := Rleb b a.

(** [np.sign] *)
Definition sign (r : R) : R :=
  if Rlt_dec 0 r then 1 else if Rlt_dec r 0 then -1 else 0.

(** The literal [1e-5]. *)
Definition tol : R := 1 / 100000.

(** ** Points and segments *)

(** A point is a length-2 array [[x, y]]; a segment is a pair of points. *)
Definition point : Type := (R * R)%type.
Definition line : Type := (point * point)%type.

Definition psub (p q : point) : point := (fst p - fst q, snd p - snd q).
Definition padd (p q : point) : point := (fst p + fst q, snd p + snd q).
Definition pscale (p : point) (k : R) : point := (fst p * k, snd p * k).

(** [distance(pos1, pos2)]:
    [delta = (pos1-pos2)**2; res = np.sqrt(delta[0]+delta[1])]. *)
Definition distance (pos1 pos2 : point) : R :=
  let delta := psub pos1 pos2 in
  sqrt (fst delta ^ 2 + snd delta ^ 2).

(** ** Geometry kernel *)

(** [cal_crosspoint(line1, line2)]: the intersection of the two infinite
    lines in slope form; [(False, (0, 0))] for parallel lines.  The test
    [a1 == a3] is the equality of the exact slopes here; the program
    compares the rounded quotients, which is [F64.cal_crosspoint]
    below. *)
Definition cal_crosspoint (line1 line2 : line) : bool * point :=
  let '((x1, y1), (x2, y2)) := line1 in
  let '((x3, y3), (x4, y4)) := line2 in
  if Reqb x1 x2 && Reqb x3 x4 then (false, (0, 0))
  else if Reqb x1 x2 then
    (true, (x1, (y4 - y3) / (x4 - x3) * (x1 - x3) + y3))
  else if Reqb x3 x4 then
    (true, (x3, (y2 - y1) / (x2 - x1) * (x3 - x1) + y1))
  else
    let a1 := (y2 - y1) / (x2 - x1) in
    let a3 := (y4 - y3) / (x4 - x3) in
    if Reqb a1 a3 then (false, (0, 0))
    else
      let x := (a1 * x1 - y1 - a3 * x3 + y3) / (a1 - a3) in
      let y := (y2 - y1) / (x2 - x1) * (x - x1) + y1 in
      (true, (x, y)).

(** [all(abs(p - pos) <= 1e-5)] *)
Definition close_to (p pos : point) : bool :=
  Rleb (Rabs (fst (psub p pos))) tol && Rleb (Rabs (snd (psub p pos))) tol.

(** [is_online(line, pos)] *)
Definition is_online (l : line) (pos : point) : bool :=
  let '(pos1, pos2) := l in
  if close_to pos1 pos || close_to pos2 pos then true
  else if Rgeb (Rabs (snd (psub pos1 pos) * fst (psub pos2 pos)
                      - fst (psub pos1 pos) * snd (psub pos2 pos))) tol
  then false
  else if Reqb (sign (fst (psub pos1 pos))) (sign (fst (psub pos pos2)))
          && Reqb (sign (snd (psub pos1 pos))) (sign (snd (psub pos pos2)))
  then true
  else false.

(** [crossing(line1, line2)] *)
Definition crossing (line1 line2 : line) : bool * point :=
  let '(flag, cross_point) := cal_crosspoint line1 line2 in
  let flag := if negb (is_online line1 cross_point) then false else flag in
  let flag := if negb (is_online line2 cross_point) then false else flag in
  (flag, cross_point).

(** ** Obstacle map *)

Record MAP : Type := mkMAP { lines : list line }.

(** [zip(wall_vertices[:-1], wall_vertices[1:])] *)
Definition wall_line (wall_vertices : list point) : list line :=
  combine (removelast wall_vertices) (tl wall_vertices).

(** [MAP.__init__(walls)] *)
Definition MAP_init (walls : list (list point)) : MAP :=
  mkMAP (fold_left (fun wall_lines wall_vertices =>
                      wall_lines ++ wall_line wall_vertices) walls []).

(** One iteration of the loop of [MAP.is_collision]. *)
Definition is_collision_step (l : line) (acc : bool * list point)
  (road_line : line) : bool * list point :=
  let '(res_flag, cross_points) := acc in
  let '(flag, cross_point) := crossing road_line l in
  if flag then (true, cross_points ++ [cross_point])
  else (res_flag, cross_points).

(** [MAP.is_collision(line)] *)
Definition is_collision (m : MAP) (l : line) : bool * list point :=
  fold_left (is_collision_step l) (lines m) (false, []).

(** ** Vehicle kinematic model *)

(** The scalar keys of [Car.params]; the key ["pos"] is the field [pos]. *)
Inductive pname : Type :=
| Px | Py | Pyaw | Pvx | Pvy | Pv | Pa | Ps | Ptime | Pdt.

Definition pname_eqb (k1 k2 : pname) : bool :=
  match k1, k2 with
  | Px, Px | Py, Py | Pyaw, Pyaw | Pvx, Pvx | Pvy, Pvy
  | Pv, Pv | Pa, Pa | Ps, Ps | Ptime, Ptime | Pdt, Pdt => true
  | _, _ => false
  end.

(** [self._params_name], without ["pos"]. *)
Definition params_name : list pname :=
  [Px; Py; Pyaw; Pvx; Pvy; Pv; Pa; Ps; Ptime; Pdt].

Record Params : Type := mkParams {
  x : R; y : R; yaw : R; vx : R; vy : R; v : R;
  a : R; s : R; pos : point; time : R; dt : R
}.

Definition get_param (k : pname) (p : Params) : R :=
  match k with
  | Px => x p | Py => y p | Pyaw => yaw p | Pvx => vx p | Pvy => vy p
  | Pv => v p | Pa => a p | Ps => s p | Ptime => time p | Pdt => dt p
  end.

Definition set_param (k : pname) (r : R) (p : Params) : Params :=
  match k with
  | Px => mkParams r (y p) (yaw p) (vx p) (vy p) (v p) (a p) (s p) (pos p) (time p) (dt p)
  | Py => mkParams (x p) r (yaw p) (vx p) (vy p) (v p) (a p) (s p) (pos p) (time p) (dt p)
  | Pyaw => mkParams (x p) (y p) r (vx p) (vy p) (v p) (a p) (s p) (pos p) (time p) (dt p)
  | Pvx => mkParams (x p) (y p) (yaw p) r (vy p) (v p) (a p) (s p) (pos p) (time p) (dt p)
  | Pvy => mkParams (x p) (y p) (yaw p) (vx p) r (v p) (a p) (s p) (pos p) (time p) (dt p)
  | Pv => mkParams (x p) (y p) (yaw p) (vx p) (vy p) r (a p) (s p) (pos p) (time p) (dt p)
  | Pa => mkParams (x p) (y p) (yaw p) (vx p) (vy p) (v p) r (s p) (pos p) (time p) (dt p)
  | Ps => mkParams (x p) (y p) (yaw p) (vx p) (vy p) (v p) (a p) r (pos p) (time p) (dt p)
  | Ptime => mkParams (x p) (y p) (yaw p) (vx p) (vy p) (v p) (a p) (s p) (pos p) r (dt p)
  | Pdt => mkParams (x p) (y p) (yaw p) (vx p) (vy p) (v p) (a p) (s p) (pos p) (time p) r
  end.

Definition set_pos (q : point) (p : Params) : Params :=
  mkParams (x p) (y p) (yaw p) (vx p) (vy p) (v p) (a p) (s p) q (time p) (dt p).

(** A dict from scalar keys to numbers, in insertion order. *)
Definition dict : Type := list (pname * R).

Fixpoint dict_set (k : pname) (r : R) (d : dict) : dict :=
  match d with
  | [] => [(k, r)]
  | (k', r') :: d' =>
      if pname_eqb k k' then (k, r) :: d' else (k', r') :: dict_set k r d'
  end.

(** The histories: one list per scalar key and the list of positions. *)
Record Histories : Type := mkHistories {
  h_scalar : pname -> list R;
  h_pos : list point
}.

Record Car : Type := mkCar {
  params : Params;
  nparams : dict;                (* [self._nparams] *)
  histories : Histories;         (* [self._histories] *)
  dpos : option line;            (* set by the first [update] *)
  step_dis : option R;           (* set by the first [update] *)
  total_dis : R
}.

(** [Car._params_update(new_params)]: copy every entry of [new_params],
    then recompute ["pos"] and ["v"]. *)
Definition params_update (p : Params) (new_params : dict) : Params :=
  let p1 := fold_left (fun q kv => set_param (fst kv) (snd kv) q) new_params p in
  let p2 := set_pos (x p1, y p1) p1 in
  set_param Pv (sqrt (vx p2 ^ 2 + vy p2 ^ 2)) p2.

(** [Car._params_history_update()] *)
Definition params_history_update (h : Histories) (p : Params) : Histories :=
  mkHistories (fun k => h_scalar h k ++ [get_param k p])
              (h_pos h ++ [pos p]).

Definition zero_params : Params := mkParams 0 0 0 0 0 0 0 0 (0, 0) 0 0.

(** [Car.__init__]: the keyword arguments are a dict of scalar keys. *)
Definition Car_init (kwargs : dict) : Car :=
  let p0 := fold_left (fun q kv => set_param (fst kv) (snd kv) q) kwargs zero_params in
  let p := params_update p0 [] in
  let h := mkHistories
             (fun k => match k with
                       | Pdt => [0]
                       | Pa | Ps => []
                       | _ => [get_param k p]
                       end)
             [pos p] in
  mkCar p [] h None None 0.

(** [Car._model()]: advances ["time"] and fills [_nparams]. *)
Definition model_ (c : Car) : Car :=
  let p := params c in
  let p' := set_param Ptime (time p + dt p) p in
  let n := nparams c in
  let n := dict_set Px (x p' + vx p' * cos (yaw p') * dt p') n in
  let n := dict_set Py (y p' + vx p' * sin (yaw p') * dt p') n in
  let n := dict_set Pvx (vx p' + a p' * dt p') n in
  let n := dict_set Pyaw (yaw p' + s p' * dt p') n in
  mkCar p' n (histories c) (dpos c) (step_dis c) (total_dis c).

Definition dict_get (k : pname) (d : dict) : option R :=
  match find (fun kv => pname_eqb k (fst kv)) d with
  | Some kv => Some (snd kv)
  | None => None
  end.

(** [Car.update(a, steer, dt)].  [_model] has just written the keys
    ["x"] and ["y"] of [_nparams], so the two look-ups find them. *)
Definition update (c : Car) (a_ steer dt_ : R) : Car :=
  let p := params c in
  let p := set_param Pa a_ p in
  let p := set_param Ps steer p in
  let p := set_param Pdt dt_ p in
  let p := set_param Ptime (time p + dt p) p in
  let c1 := model_ (mkCar p (nparams c) (histories c) (dpos c) (step_dis c) (total_dis c)) in
  let nx := match dict_get Px (nparams c1) with Some r => r | None => 0 end in
  let ny := match dict_get Py (nparams c1) with Some r => r | None => 0 end in
  let npos := (nx, ny) in
  let dpos' := (pos (params c1), npos) in
  let step_dis' := distance (fst dpos') (snd dpos') in
  let total_dis' := total_dis c1 + step_dis' in
  let p' := params_update (params c1) (nparams c1) in
  let h' := params_history_update (histories c1) p' in
  mkCar p' (nparams c1) h' (Some dpos') (Some step_dis') total_dis'.

(** ** Ranging fan *)

(** [np.deg2rad] *)
Definition deg2rad (d : R) : R := d * (PI / 180).

(** [int(r)] on a number: truncation towards zero. *)
Definition int_trunc (r : R) : Z :=
  if Rle_dec 0 r then Int_part r else (- Int_part (- r))%Z.

(** The attribute [car] of a [LiDAR] is a reference to the vehicle the
    rollout updates; [make_line] below therefore takes the vehicle as it
    is at the time of the call. *)
Record LiDAR : Type := mkLiDAR {
  sensor_num : nat;
  sensor_angles_std : list R;
  line_len : R;
  line_num : Z;
  line_delta : R
}.

(** [LiDAR.__init__(car, sensor_angle_max, sensor_num, line_len, line_delta)]
    on Python numbers: both divisions raise on a zero divisor. *)
Definition LiDAR_init (sensor_angle_max : R) (sensor_num_ : nat)
  (line_len_ line_delta_ : R) : result LiDAR :=
  let sensor_angle_min := - sensor_angle_max / 2 in
  if (Z.of_nat sensor_num_ - 1 =? 0)%Z then Err ZeroDivisionError
  else
    let sensor_angle_delta := sensor_angle_max / IZR (Z.of_nat sensor_num_ - 1) in
    let angles := map (fun i => sensor_angle_min + sensor_angle_delta * INR i)
                      (seq 0 sensor_num_) in
    if Reqb line_delta_ 0 then Err ZeroDivisionError
    else
      Ok (mkLiDAR sensor_num_ (map deg2rad angles) line_len_
                  (int_trunc ((line_len_ + line_delta_) / line_delta_))
                  line_delta_).

(** [l[i] = v] on a Python list. *)
Fixpoint list_set {A : Type} (l : list A) (i : nat) (v : A) : result (list A) :=
  match l, i with
  | [], _ => Err IndexError
  | _ :: t, O => Ok (v :: t)
  | h :: t, S j => t' <- list_set t j v ;; Ok (h :: t')
  end.

(** The inner loop of [make_line] over the crossing points: [line_dis]
    and [point] are overwritten by every strictly nearer point; [point]
    is [None] while the local variable is unbound. *)
Definition nearest_step (pos_ : point) (acc : R * option point) (p : point)
  : R * option point :=
  let '(line_dis, point_) := acc in
  let dis := distance pos_ p in
  if Rltb dis line_dis then (dis, Some p) else (line_dis, point_).

Definition nearest (pos_ : point) (points : list point)
  (line_dis : R) (point_ : option point) : R * option point :=
  fold_left (nearest_step pos_) points (line_dis, point_).

(** The local variables of [make_line] that the loop over the rays
    changes. *)
Record rays : Type := mkRays {
  line_reaches_wall : list bool;
  line_end_pos : list point;
  line_distaces : list R;
  point_var : option point       (* the local [point]; [None] = unbound *)
}.

(** The body of the loop of [make_line] for ray [i]. *)
Definition make_line_body (l : LiDAR) (m : MAP) (pos_ : point)
  (st : rays) (i : nat) (sensor_angle : R) : result rays :=
  let cos_angle := cos sensor_angle in
  let sin_angle := sin sensor_angle in
  let line_end_xy := padd pos_ (pscale (cos_angle, sin_angle) (line_len l)) in
  let sensor_line := (line_end_xy, pos_) in
  let line_dis := line_len l in
  let '(flag, points) := is_collision m sensor_line in
  '(reaches, line_dis, point_) <-
     (if flag then
        reaches <- list_set (line_reaches_wall st) i true ;;
        let '(line_dis, point_) := nearest pos_ points line_dis (point_var st) in
        Ok (reaches, line_dis, point_)
      else Ok (line_reaches_wall st, line_dis, Some line_end_xy)) ;;
  match point_ with
  | None => Err UnboundLocalError
  | Some p =>
      Ok (mkRays reaches (line_end_pos st ++ [p])
                 (line_distaces st ++ [line_dis]) point_)
  end.

(** [for i, sensor_angle in enumerate(sensor_angles)], from index [i]. *)
Fixpoint make_line_loop (l : LiDAR) (m : MAP) (pos_ : point)
  (st : rays) (i : nat) (sensor_angles : list R) : result rays :=
  match sensor_angles with
  | [] => Ok st
  | sensor_angle :: rest =>
      st' <- make_line_body l m pos_ st i sensor_angle ;;
      make_line_loop l m pos_ st' (S i) rest
  end.

(** [LiDAR.make_line(map)], with the vehicle [c] the sensor is mounted
    on; returns [(line_end_pos, line_reaches_wall, line_distaces)]. *)
Definition make_line (l : LiDAR) (c : Car) (m : MAP)
  : result (list point * list bool * list R) :=
  let pos_ := pos (params c) in
  let yaw_ := yaw (params c) in
  let sensor_angles := map (fun t => t + yaw_) (sensor_angles_std l) in
  let st0 := mkRays (repeat false (sensor_num l)) [] [] None in
  st <- make_line_loop l m pos_ st0 0 sensor_angles ;;
  Ok (line_end_pos st, line_reaches_wall st, line_distaces st).

(** ** Action table *)

Definition direction_list : list R := [1; 1/2; 0; -1/2; -1].
Definition acceleration_list : list R := [1; 1/2; 0; -1/2; -1].

(** [[(d, a) for d in direction_list for a in acceleration_list]] *)
Definition ACTION_LIST : list (R * R) :=
  flat_map (fun d => map (fun a_ => (d, a_)) acceleration_list) direction_list.

Definition steer_step : R := 90.
Definition NUM_ACTIONS : nat := length ACTION_LIST.

Record action : Type := mkAction {
  act_steer : R;
  act_a : R;
  act_dt : R
}.

(** [torch.zeros([NUM_ACTIONS])] with entry [action] set to 1. *)
Definition one_hot_of (n : nat) : list R :=
  map (fun i => if Nat.eqb i n then 1 else 0) (seq 0 NUM_ACTIONS).

(** [dicide_action(output)], once [np.random.choice] has drawn the index
    [n]; an index outside the table raises. *)
Definition dicide_action (n : nat) : result (action * list R) :=
  match nth_error ACTION_LIST n with
  | None => Err IndexError
  | Some (steer, a_) =>
      Ok (mkAction (steer * deg2rad steer_step) a_ (1 / 10), one_hot_of n)
  end.

(** [u @ w] for two vectors. *)
Definition dot (u w : list R) : R :=
  fold_right Rplus 0 (map (fun uw => fst uw * snd uw) (combine u w)).

(** ** Episode rollout *)

(** One entry of [experiences]. *)
Record step_dict : Type := mkStep {
  sd_state : list R;
  sd_output : list R;
  sd_reward : R;
  sd_action : action;
  sd_one_hot : list R;
  sd_done : bool
}.

(** The variables of [episode] that its loop changes; the vehicle is the
    caller's object and is changed in place. *)
Record rollout : Type := mkRollout {
  ep_car : Car;
  experiences : list step_dict;
  ep_done : bool;
  ep_step : nat;
  pi_list : list (option R);
  reward_list : list (option R)
}.

Definition collision_reward : R := 0.

Section Episode.

(** The step budget (200 in the program). *)
Variable max_number_of_steps : nat.
(** The policy network: from the observation to the action
    probabilities. *)
Variable model : list R -> list R.
(** The draws of [np.random.choice]: the index drawn at the step with
    that many recorded experiences, given the probabilities. *)
Variable choice : nat -> list R -> nat.

Variable lidar : LiDAR.
Variable Map : MAP.

(** [input = torch.cat([distances, vx])] *)
Definition observation (c : Car) : result (list R) :=
  '(points, flags, distances) <- make_line lidar c Map ;;
  Ok (distances ++ [vx (params c)]).

(** The body of the [while] loop of [episode]. *)
Definition episode_body (st : rollout) : result rollout :=
  '(points, flags, distances) <- make_line lidar (ep_car st) Map ;;
  let input := distances ++ [vx (params (ep_car st))] in
  let output := model input in
  '(act, one_hot) <- dicide_action (choice (length (experiences st)) output) ;;
  let car := update (ep_car st) (act_a act) (act_steer act) (act_dt act) in
  match step_dis car, dpos car with
  | Some reward, Some dpos_ =>
      let '(collision_flag, collision_point) := is_collision Map dpos_ in
      let '(reward, done) :=
        if collision_flag then (collision_reward, true)
        else (reward, ep_done st) in
      let done :=
        if (Z.of_nat max_number_of_steps - 1 <=? Z.of_nat (length (experiences st)))%Z
        then true else done in
      let step_dict_ := mkStep distances output reward act one_hot done in
      let experiences_ := experiences st ++ [step_dict_] in
      pi_list_ <- list_set (pi_list st) (ep_step st)
                    (Some (dot (sd_output step_dict_) (sd_one_hot step_dict_))) ;;
      reward_list_ <- list_set (reward_list st) (ep_step st)
                        (Some (sd_reward step_dict_)) ;;
      Ok (mkRollout car experiences_ done (S (ep_step st)) pi_list_ reward_list_)
  | _, _ => Err AttributeError
  end.

(** [while done == False: ...], with a bound on the number of
    iterations. *)
Fixpoint episode_loop (fuel : nat) (st : rollout) : result rollout :=
  if ep_done st then Ok st
  else
    match fuel with
    | O => Err OutOfFuel
    | S fuel' => st' <- episode_body st ;; episode_loop fuel' st'
    end.

Definition episode_start (car : Car) : rollout :=
  mkRollout car [] false 0
            (repeat None max_number_of_steps)
            (repeat None max_number_of_steps).

(** [episode(car, lidar, Map, model)]: the final rollout state holds
    the four returned values and the vehicle. *)
Definition episode (fuel : nat) (car : Car) : result rollout :=
  episode_loop fuel (episode_start car).

End Episode.

(** ** Objective of the policy update *)

(** [t.nansum()] over one row. *)
Definition nansum (row : list (option R)) : R :=
  fold_right (fun e acc => match e with Some r => r + acc | None => acc end) 0 row.

(** [t.mean()] over a vector without markers.  On an empty vector Torch
    answers NaN; the properties below take a batch that is not empty. *)
Definition mean (l : list R) : R := fold_right Rplus 0 l / INR (length l).

(** [t / steps], row by row.  The lengths are those returned by
    [episode], which are at least 1. *)
Definition div_steps (sums : list R) (steps : list nat) : list R :=
  map (fun sn => fst sn / INR (snd sn)) (combine sums steps).

(** [reward_ave = (rewards.nansum(dim=1)/steps).mean()], with the exact
    sum, quotient and mean; the program rounds each of them to binary32,
    which is [F32.reward_ave] below. *)
Definition reward_ave (rewards : list (list (option R))) (steps : list nat) : R :=
  mean (div_steps (map nansum rewards) steps).

(** [torch.clamp(p, 1e-10, 1)] on one entry. *)
Definition clamp (p : R) : R :=
  if Rltb p (1 / 10000000000) then 1 / 10000000000
  else if Rltb 1 p then 1 else p.

(** Entrywise operations keep the marker. *)
Definition lift2 (f : R -> R -> R) (u w : option R) : option R :=
  match u, w with
  | Some r1, Some r2 => Some (f r1 r2)
  | _, _ => None
  end.

(** [rewards - reward_ave] *)
Definition advantage (rewards : list (list (option R))) (steps : list nat)
  : list (list (option R)) :=
  map (map (option_map (fun r => r - reward_ave rewards steps))) rewards.

(** [Jmt = clampped.log()*(rewards-reward_ave)] *)
Definition Jmt (rewards policies : list (list (option R))) (steps : list nat)
  : list (list (option R)) :=
  map (fun pr => map (fun e => lift2 Rmult (fst e) (snd e))
                     (combine (map (option_map (fun p => ln (clamp p))) (fst pr))
                              (snd pr)))
      (combine policies (advantage rewards steps)).

(** [J = (Jmt.nansum(dim=1)/steps).mean()] *)
Definition objective_J (rewards policies : list (list (option R)))
  (steps : list nat) : R :=
  mean (div_steps (map nansum (Jmt rewards policies steps)) steps).

(** ** The geometry kernel in binary64 *)

(** The same functions as above, line by line, on binary64 numbers:
    [==], [<=], [>=] are the IEEE comparisons (false on NaN), and every
    operation rounds to nearest even. *)
Module F64.

Local Open Scope float_scope.

Definition point : Type := (float * float)%type.
Definition line : Type := (point * point)%type.

(** The literal [1e-5]: the binary64 number nearest to it. *)
Definition tol : float := 0x1.4f8b588e368f1p-17.

(** [np.sign]: NaN for NaN. *)
Definition sign (x : float) : float :=
  if 0 <? x then 1 else if x <? 0 then -1 else if x =? 0 then 0 else nan.

(** [cal_crosspoint(line1, line2)] *)
Definition cal_crosspoint (line1 line2 : line) : bool * point :=
  let '((x1, y1), (x2, y2)) := line1 in
  let '((x3, y3), (x4, y4)) := line2 in
  if (x1 =? x2) && (x3 =? x4) then (false, (0, 0))
  else if x1 =? x2 then
    (true, (x1, (y4 - y3) / (x4 - x3) * (x1 - x3) + y3))
  else if x3 =? x4 then
    (true, (x3, (y2 - y1) / (x2 - x1) * (x3 - x1) + y1))
  else
    let a1 := (y2 - y1) / (x2 - x1) in
    let a3 := (y4 - y3) / (x4 - x3) in
    if a1 =? a3 then (false, (0, 0))
    else
      let x := (a1 * x1 - y1 - a3 * x3 + y3) / (a1 - a3) in
      let y := (y2 - y1) / (x2 - x1) * (x - x1) + y1 in
      (true, (x, y)).

(** [all(abs(p - pos) <= 1e-5)] *)
Definition close_to (p pos : point) : bool :=
  (abs (fst p - fst pos) <=? tol) && (abs (snd p - snd pos) <=? tol).

(** [is_online(line, pos)] *)
Definition is_online (l : line) (pos : point) : bool :=
  let '(pos1, pos2) := l in
  if close_to pos1 pos || close_to pos2 pos then true
  else if tol <=? abs ((snd pos1 - snd pos) * (fst pos2 - fst pos)
                       - (fst pos1 - fst pos) * (snd pos2 - snd pos))
  then false
  else if (sign (fst pos1 - fst pos) =? sign (fst pos - fst pos2))
          && (sign (snd pos1 - snd pos) =? sign (snd pos - snd pos2))
  then true
  else false.

(** [crossing(line1, line2)] *)
Definition crossing (line1 line2 : line) : bool * point :=
  let '(flag, cross_point) := cal_crosspoint line1 line2 in
  let flag := if negb (is_online line1 cross_point) then false else flag in
  let flag := if negb (is_online line2 cross_point) then false else flag in
  (flag, cross_point).

End F64.

(** ** The baseline in binary32 *)

(** The tensors [rewards] and [steps] of [update_policy] hold binary32
    numbers; the marker is the NaN of the format.  A row is summed from
    its first entry on.  Torch does not fix the order of the additions
    of a reduction; the example below has three equal rewards in a row,
    for which every order adds the same numbers. *)
Module F32.

Definition prec : Z := 24.
Definition emax : Z := 128.

Definition f32 : Type := spec_float.

Definition zero : f32 := S754_zero false.
Definition add : f32 -> f32 -> f32 := SFadd prec emax.
Definition sub : f32 -> f32 -> f32 := SFsub prec emax.
Definition div : f32 -> f32 -> f32 := SFdiv prec emax.

(** A length as an entry of the tensor [steps]. *)
Definition of_nat (n : nat) : f32 :=
  binary_normalize prec emax (Z.of_nat n) 0 false.

(** A binary64 number stored into a binary32 tensor, as
    [reward_list[step] = reward]. *)
Definition of_f64 (x : float) : f32 :=
  match Prim2SF x with
  | S754_finite s m e =>
      binary_normalize prec emax (if s then Z.neg m else Z.pos m) e s
  | v => v
  end.

Definition is_nan (x : f32) : bool :=
  match x with S754_nan => true | _ => false end.

(** [t.nansum()] over one row: a marker counts as 0. *)
Definition nansum (row : list f32) : f32 :=
  fold_left (fun acc x => add acc (if is_nan x then zero else x)) row zero.

(** [t.mean()] *)
Definition mean (l : list f32) : f32 :=
  div (fold_left add l zero) (of_nat (length l)).

(** [t / steps], row by row. *)
Definition div_steps (sums : list f32) (steps : list nat) : list f32 :=
  map (fun sn => div (fst sn) (of_nat (snd sn))) (combine sums steps).

(** [reward_ave = (rewards.nansum(dim=1)/steps).mean()] *)
Definition reward_ave (rewards : list (list f32)) (steps : list nat) : f32 :=
  mean (div_steps (map nansum rewards) steps).

(** [rewards - reward_ave] *)
Definition advantage (rewards : list (list f32)) (steps : list nat)
  : list (list f32) :=
  map (map (fun r => sub r (reward_ave rewards steps))) rewards.

End F32.

(** * Vocabulary of the properties *)

(** ** Vehicles built by the program *)

(** [_nparams] only ever holds the four keys that [_model] writes, and
    ["pos"] is the pair of ["x"] and ["y"]. *)
Definition model_key (k : pname) : Prop :=
  k = Px \/ k = Py \/ k = Pvx \/ k = Pyaw.

Record well_formed (c : Car) : Prop := mkWf {
  wf_keys : forall k, In k (map fst (nparams c)) -> model_key k;
  wf_nodup : NoDup (map fst (nparams c));
  wf_pos : pos (params c) = (x (params c), y (params c))
}.

(** The dict that [_model] leaves in [_nparams]. *)
Definition model_dict (p : Params) (d : dict) : dict :=
  dict_set Pyaw (yaw p + s p * dt p)
    (dict_set Pvx (vx p + a p * dt p)
       (dict_set Py (y p + vx p * sin (yaw p) * dt p)
          (dict_set Px (x p + vx p * cos (yaw p) * dt p) d))).

(** The parameters after one [update], field by field. *)
Definition updated_params (p : Params) (a_ steer dt_ : R) : Params :=
  let x' := x p + vx p * cos (yaw p) * dt_ in
  let y' := y p + vx p * sin (yaw p) * dt_ in
  let vx' := vx p + a_ * dt_ in
  mkParams x' y' (yaw p + steer * dt_) vx' (vy p)
           (sqrt (vx' ^ 2 + vy p ^ 2)) a_ steer (x', y')
           (time p + dt_ + dt_) dt_.

(** ** Lines and parallel segments *)

(** A point on the infinite line through a segment. *)
Definition on_line (l : line) (p : point) : Prop :=
  (snd p - snd (fst l)) * (fst (snd l) - fst (fst l))
  = (snd (snd l) - snd (fst l)) * (fst p - fst (fst l)).

Definition vertical (l : line) : Prop := fst (fst l) = fst (snd l).

Definition slope (l : line) : R :=
  (snd (snd l) - snd (fst l)) / (fst (snd l) - fst (fst l)).

(** Both vertical, or neither vertical and of equal slopes. *)
Definition parallel (l1 l2 : line) : Prop :=
  (vertical l1 /\ vertical l2) \/
  (~ vertical l1 /\ ~ vertical l2 /\ slope l1 = slope l2).

(** ** Binary64 segments: the parallel test and exact slopes *)

(** The parallel test as [cal_crosspoint] makes it: both segments
    vertical for [==], or neither and the two rounded slopes equal for
    [==]. *)
Definition f64_vertical (l : F64.line) : bool :=
  (fst (fst l) =? fst (snd l))%float.

Definition f64_slope (l : F64.line) : float :=
  ((snd (snd l) - snd (fst l)) / (fst (snd l) - fst (fst l)))%float.

Definition compared_parallel (l1 l2 : F64.line) : bool :=
  (f64_vertical l1 && f64_vertical l2)
  || (negb (f64_vertical l1) && negb (f64_vertical l2)
      && (f64_slope l1 =? f64_slope l2)%float).

(** The rational number that a finite binary64 number is. *)
Definition exact (x : float) : option Q :=
  match Prim2SF x with
  | S754_zero _ => Some (inject_Z 0)
  | S754_finite s m e =>
      Some (Qmult (inject_Z (if s then Z.neg m else Z.pos m))
                  (Qpower (inject_Z 2) e))
  | _ => None
  end.

Definition exact_point (p : F64.point) : option (Q * Q) :=
  match exact (fst p), exact (snd p) with
  | Some a, Some b => Some (a, b)
  | _, _ => None
  end.

(** Parallel segments in the sense of the specification, on the exact
    values of the coordinates: both vertical, or neither vertical and of
    equal slopes. *)
Definition exactly_parallel (l1 l2 : F64.line) : bool :=
  match exact_point (fst l1), exact_point (snd l1),
        exact_point (fst l2), exact_point (snd l2) with
  | Some (x1, y1), Some (x2, y2), Some (x3, y3), Some (x4, y4) =>
      (Qeq_bool x1 x2 && Qeq_bool x3 x4)
      || (negb (Qeq_bool x1 x2) && negb (Qeq_bool x3 x4)
          && Qeq_bool (Qdiv (Qminus y2 y1) (Qminus x2 x1))
                      (Qdiv (Qminus y4 y3) (Qminus x4 x3)))
  | _, _, _, _ => false
  end.

(** Two overlapping segments of the line [x = 3 y]: (0,0)-(9,3) and
    (3*1.1, 1.1)-(7.5, 2.5), where 1.1 is the binary64 number nearest to
    it and the product by 3 is exact. *)
Definition colinear_segment_1 : F64.line := ((0, 0), (9, 3))%float.
Definition colinear_segment_2 : F64.line :=
  ((3 * 0x1.199999999999ap+0, 0x1.199999999999ap+0), (7.5, 2.5))%float.

(** ** A binary32 batch of constant reward *)

(** The reward 0.9 as stored in the tensor, and a batch of one episode
    of three steps of that reward, padded to 200 entries. *)
Definition nine_tenths : F32.f32 := F32.of_f64 0x1.ccccccccccccdp-1%float.

Definition constant_rewards_f32 : list (list F32.f32) :=
  [repeat nine_tenths 3 ++ repeat S754_nan 197].

(** ** Readings of the ranging fan *)

(** The probe of the ray at world angle [ang] from the position [pos_]:
    far endpoint first, as [sensor_line] in the program. *)
Definition probe (l : LiDAR) (pos_ : point) (ang : R) : line :=
  (padd pos_ (pscale (cos ang, sin ang) (line_len l)), pos_).

(** The least of [d0] and the distances of the points to [pos_]. *)
Definition min_dist (pos_ : point) (points : list point) (d0 : R) : R :=
  fold_left Rmin (map (distance pos_) points) d0.

(** What [make_line] reports for one ray: without a hit the far endpoint
    and the maximum range; with a hit the least of the maximum range and
    the distances of the crossing points, and, when some crossing point
    is nearer than the maximum range, a crossing point at that
    distance. *)
Definition reading_ok (l : LiDAR) (m : MAP) (pos_ : point) (ang : R)
  (end_ : point) (hit : bool) (d : R) : Prop :=
  let '(flag, points) := is_collision m (probe l pos_ ang) in
  hit = flag /\
  (flag = false -> end_ = fst (probe l pos_ ang) /\ d = line_len l) /\
  (flag = true ->
   d = min_dist pos_ points (line_len l) /\
   ((exists p, In p points /\ distance pos_ p < line_len l) ->
    In end_ points /\ distance pos_ end_ = d /\
    forall p, In p points -> d <= distance pos_ p)).

(** The reading of a ray in the words of the specification: with a hit
    the reported distance is the least distance of the crossing points to
    the vehicle and the reported endpoint is a crossing point at that
    distance. *)
Definition reading_as_claimed (l : LiDAR) (m : MAP) (pos_ : point) (ang : R)
  (end_ : point) (hit : bool) (d : R) : Prop :=
  let '(flag, points) := is_collision m (probe l pos_ ang) in
  (flag = false ->
   end_ = fst (probe l pos_ ang) /\ hit = false /\ d = line_len l) /\
  (flag = true ->
   In end_ points /\ distance pos_ end_ = d /\
   forall p, In p points -> d <= distance pos_ p).

(** ** Steps of the rollout *)

Section RolloutSteps.

Variable max_number_of_steps : nat.
Variable model : list R -> list R.
Variable Map : MAP.

(** The vehicle after the step that applies [act]. *)
Definition next_car (st : rollout) (act : action) : Car :=
  update (ep_car st) (act_a act) (act_steer act) (act_dt act).

(** The collision test of that step, on [car.dpos]. *)
Definition collided (st : rollout) (act : action) : bool :=
  match dpos (next_car st act) with
  | Some d => fst (is_collision Map d)
  | None => false
  end.

Definition step_reward (st : rollout) (act : action) : R :=
  if collided st act then collision_reward
  else match step_dis (next_car st act) with Some r => r | None => 0 end.

Definition budget_reached (st : rollout) : bool :=
  (Z.of_nat max_number_of_steps - 1 <=? Z.of_nat (length (experiences st)))%Z.

Definition step_done (st : rollout) (act : action) : bool :=
  if budget_reached st then true
  else if collided st act then true else ep_done st.

Definition step_entry (st : rollout) (dists : list R) (act : action)
  (one_hot : list R) : step_dict :=
  mkStep dists (model (dists ++ [vx (params (ep_car st))]))
         (step_reward st act) act one_hot (step_done st act).

(** The probability of the action taken, [output @ one_hot]. *)
Definition pi_of (e : step_dict) : R := dot (sd_output e) (sd_one_hot e).

(** A sequence of values padded with markers to length [n]. *)
Definition padded (vals : list R) (n : nat) : list (option R) :=
  map Some vals ++ repeat None (n - length vals).

(** The invariant of the loop of [episode]. *)
Record rollout_inv (st : rollout) : Prop := mkInv {
  inv_step : ep_step st = length (experiences st);
  inv_len : (length (experiences st) <= max_number_of_steps)%nat;
  inv_pi : pi_list st = padded (map pi_of (experiences st)) max_number_of_steps;
  inv_reward :
    reward_list st = padded (map sd_reward (experiences st)) max_number_of_steps;
  inv_running :
    ep_done st = false -> Forall (fun e => sd_done e = false) (experiences st);
  inv_done :
    ep_done st = true ->
    exists pre e, experiences st = pre ++ [e] /\ sd_done e = true /\
                  Forall (fun e' => sd_done e' = false) pre
}.

End RolloutSteps.

(** ** Sums over padded rows *)

Definition total (l : list R) : R := fold_right Rplus 0 l.

(** The non-marker entries of a row, in order. *)
Definition values (row : list (option R)) : list R :=
  flat_map (fun e => match e with Some r => [r] | None => [] end) row.

(** One term of the objective: [log(clamp(p)) * (r - b)]. *)
Definition advantage_term (b : R) (pr : R * R) : R :=
  ln (clamp (fst pr)) * (snd pr - b).

(** A batch of episodes given by their recorded values: the rewards and
    the probabilities of the actions taken, of equal length. *)
Definition batch : Type := list (list R * list R).

Definition batch_rewards (n : nat) (eps : batch) : list (list (option R)) :=
  map (fun e => padded (fst e) n) eps.
Definition batch_policies (n : nat) (eps : batch) : list (list (option R)) :=
  map (fun e => padded (snd e) n) eps.
Definition batch_steps (eps : batch) : list nat :=
  map (fun e => length (fst e)) eps.

(** The baseline in the words of the specification: the mean over the
    episodes of the sum of the non-marker rewards divided by the
    length. *)
Definition baseline_spec (rewards : list (list (option R))) (steps : list nat) : R :=
  mean (map (fun rk => total (values (fst rk)) / INR (snd rk))
            (combine rewards steps)).

(** An episode row with constant reward [c]: its non-marker entries are
    all [c] and there are as many as the length [k], which is not 0. *)
Definition constant_row (c : R) (row : list (option R)) (k : nat) : Prop :=
  length (values row) = k /\ (0 < k)%nat /\ Forall (fun r => r = c) (values row).

(** ** The reference configuration and the examples *)

(** The vehicle of the worked example: at the origin, heading along the
    x axis with forward velocity 1. *)
Definition car_at_origin : Car :=
  Car_init [(Px, 0); (Py, 0); (Pyaw, 0); (Pvx, 1)].

Definition max_number_of_steps_ref : nat := 200.
Definition sensor_num_ref : nat := 15.

(** [LiDAR(car=car, sensor_num=sensor_num)] with the default arguments. *)
Definition lidar_ref : LiDAR :=
  mkLiDAR sensor_num_ref
    (map deg2rad
       (map (fun i => - 180 / 2 + 180 / IZR (Z.of_nat sensor_num_ref - 1) * INR i)
            (seq 0 sensor_num_ref)))
    30 (int_trunc ((30 + 1 / 10) / (1 / 10))) (1 / 10).

(** A map without walls, a policy and draws for the examples: the draw
    is always action 12, steering 0 and acceleration 0. *)
Definition no_walls : MAP := MAP_init [].
Definition uniform_model : list R -> list R := fun _ => repeat (1 / 25) 25.
Definition always_straight : nat -> list R -> nat := fun _ _ => 12%nat.

(** A vehicle that drives through a wall in its first step. *)
Definition fast_car : Car := Car_init [(Px, 0); (Py, 0); (Pyaw, 0); (Pvx, 10)].
Definition wall_ahead : MAP := MAP_init [[(1 / 2, -1); (1 / 2, 1)]].
Definition lidar_blind : LiDAR :=
  mkLiDAR 0 [] 30 (int_trunc ((30 + 1 / 10) / (1 / 10))) (1 / 10).

(** The fan of three rays: to the right, ahead and to the left. *)
Definition lidar_three : LiDAR :=
  mkLiDAR 3 [- (PI / 2); 0; PI / 2] 30 (int_trunc ((30 + 1 / 10) / (1 / 10))) (1 / 10).

(** A wall across the ray ahead, just beyond the maximum range but within
    the tolerance of [is_online] of the far endpoint of the probe. *)
Definition wall_beyond_range : MAP :=
  MAP_init [[(30 + 5 / 1000000, -1); (30 + 5 / 1000000, 1)]].

(** The worked example of the sensor: a wall across the ray ahead at
    distance 5. *)
Definition wall_near : MAP := MAP_init [[(5, -1); (5, 1)]].

(** A vehicle at the origin heading along the y axis, and a wall across
    its rightmost ray exactly at the maximum range of the sensor. *)
Definition car_facing_wall : Car :=
  Car_init [(Px, 0); (Py, 0); (Pyaw, PI / 2); (Pvx, 6)].
Definition wall_at_range : MAP := MAP_init [[(30, -1); (30, 1)]].

(** ** Sequences of updates *)

(** A control is the triple [(a, steer, dt)] of one call to [update]. *)
Definition control : Type := (R * R * R)%type.

(** The vehicle after the calls [update(a, steer, dt)] for a list of
    controls, in order. *)
Definition drive (c : Car) (controls : list control) : Car :=
  fold_left (fun c' u => update c' (fst (fst u)) (snd (fst u)) (snd u)) controls c.

(** The length of the polyline through a list of positions. *)
Fixpoint path_length (l : list point) : R :=
  match l with
  | [] => 0
  | p :: t => match t with
              | [] => 0
              | q :: _ => distance p q + path_length t
              end
  end.

(** ** Hits at or beyond the maximum range *)

(** The probe of a ray is reported as hit while no crossing point is
    nearer to the vehicle than the maximum range. *)
Definition far_hit (l : LiDAR) (m : MAP) (pos_ : point) (ang : R) : Prop :=
  fst (is_collision m (probe l pos_ ang)) = true /\
  forall p, In p (snd (is_collision m (probe l pos_ ang))) ->
            line_len l <= distance pos_ p.

(** ** The log of a rollout as controls *)

(** The control that a step of the log applied to the vehicle. *)
Definition control_of (e : step_dict) : control :=
  (act_a (sd_action e), act_steer (sd_action e), act_dt (sd_action e)).

(** * Properties *)

(** ** Dicts *)

Lemma pname_eqb_eq (k1 k2 : pname) : pname_eqb k1 k2 = true <-> k1 = k2.
Proof. destruct k1, k2; simpl; split; intro H; try reflexivity; discriminate. Qed.

Lemma pname_eqb_refl (k : pname) : pname_eqb k k = true.
Proof. now apply pname_eqb_eq. Qed.

Lemma pname_eqb_neq (k1 k2 : pname) : k1 <> k2 -> pname_eqb k1 k2 = false.
Proof.
  intro H. destruct (pname_eqb k1 k2) eqn:E; [|reflexivity].
  now apply pname_eqb_eq in E.
Qed.

Lemma dict_get_set_same (k : pname) (r : R) (d : dict) :
  dict_get k (dict_set k r d) = Some r.
Proof.
  unfold dict_get. induction d as [|[k' r'] d IH]; simpl.
  - now rewrite pname_eqb_refl.
  - destruct (pname_eqb k k') eqn:E; simpl.
    + now rewrite pname_eqb_refl.
    + now rewrite E.
Qed.

Lemma dict_get_set_other (k k' : pname) (r : R) (d : dict) :
  k <> k' -> dict_get k (dict_set k' r d) = dict_get k d.
Proof.
  intro Hne. unfold dict_get. induction d as [|[k2 r2] d IH]; simpl.
  - now rewrite (pname_eqb_neq _ _ Hne).
  - destruct (pname_eqb k' k2) eqn:E; simpl.
    + apply pname_eqb_eq in E. subst k2.
      now rewrite (pname_eqb_neq _ _ Hne).
    + destruct (pname_eqb k k2); [reflexivity | exact IH].
Qed.

Lemma dict_set_keys (k k' : pname) (r : R) (d : dict) :
  In k' (map fst (dict_set k r d)) <-> k' = k \/ In k' (map fst d).
Proof.
  induction d as [|[k2 r2] d IH]; simpl.
  - intuition.
  - destruct (pname_eqb k k2) eqn:E; simpl.
    + apply pname_eqb_eq in E. subst k2. intuition.
    + rewrite IH. intuition.
Qed.

Lemma dict_set_NoDup (k : pname) (r : R) (d : dict) :
  NoDup (map fst d) -> NoDup (map fst (dict_set k r d)).
Proof.
  induction d as [|[k2 r2] d IH]; simpl; intro H.
  - constructor; [intros [] | constructor].
  - inversion H as [|? ? Hnin Hnd]; subst.
    destruct (pname_eqb k k2) eqn:E; simpl.
    + apply pname_eqb_eq in E. subst k2. now constructor.
    + constructor; [|now apply IH].
      rewrite dict_set_keys. intros [->|Hin]; [|contradiction].
      now rewrite pname_eqb_refl in E.
Qed.

Lemma get_set_param_same (k : pname) (r : R) (p : Params) :
  get_param k (set_param k r p) = r.
Proof. now destruct k. Qed.

Lemma get_set_param_other (k k' : pname) (r : R) (p : Params) :
  k <> k' -> get_param k (set_param k' r p) = get_param k p.
Proof. intro H. destruct k, k'; try reflexivity; now elim H. Qed.

Lemma pos_set_param (k : pname) (r : R) (p : Params) :
  pos (set_param k r p) = pos p.
Proof. now destruct k. Qed.

(** Copying a dict into the parameters: every key of the dict gets its
    value, every other key and ["pos"] keep theirs. *)
Lemma fold_set_param_get (d : dict) (p : Params) (k : pname) :
  NoDup (map fst d) ->
  get_param k (fold_left (fun q kv => set_param (fst kv) (snd kv) q) d p)
  = match dict_get k d with Some r => r | None => get_param k p end.
Proof.
  revert p. induction d as [|[k2 r2] d IH]; intros p Hnd; simpl.
  - reflexivity.
  - inversion Hnd as [|? ? Hnin Hnd']; subst.
    rewrite (IH _ Hnd'). unfold dict_get. simpl.
    destruct (pname_eqb k k2) eqn:E.
    + apply pname_eqb_eq in E. subst k2.
      assert (Hf : find (fun kv : pname * R => pname_eqb k (fst kv)) d = None).
      { destruct (find _ d) as [[k3 r3]|] eqn:F; [|reflexivity].
        apply find_some in F. destruct F as [Hin Heq]. simpl in Heq.
        apply pname_eqb_eq in Heq. subst k3.
        elim Hnin. change k with (fst (k, r3)). now apply in_map. }
      rewrite Hf. apply get_set_param_same.
    + destruct (find _ d) as [[k3 r3]|]; [reflexivity|].
      apply get_set_param_other. intro; subst. now rewrite pname_eqb_refl in E.
Qed.

Lemma fold_set_param_pos (d : dict) (p : Params) :
  pos (fold_left (fun q kv => set_param (fst kv) (snd kv) q) d p) = pos p.
Proof.
  revert p. induction d as [|[k r] d IH]; intro p; simpl; [reflexivity|].
  rewrite IH. apply pos_set_param.
Qed.

(** ** Well-formed vehicles *)

Lemma Car_init_well_formed (kwargs : dict) : well_formed (Car_init kwargs).
Proof.
  split; simpl.
  - intros k [].
  - constructor.
  - reflexivity.
Qed.

Lemma model_dict_keys (p : Params) (d : dict) :
  (forall k, In k (map fst d) -> model_key k) ->
  forall k, In k (map fst (model_dict p d)) -> model_key k.
Proof.
  intros H k. unfold model_dict, model_key. rewrite !dict_set_keys.
  intros [->|[->|[->|[->|Hin]]]]; auto. now apply H.
Qed.

Lemma model_dict_NoDup (p : Params) (d : dict) :
  NoDup (map fst d) -> NoDup (map fst (model_dict p d)).
Proof. intro H. unfold model_dict. now repeat apply dict_set_NoDup. Qed.

Lemma model_dict_get (p : Params) (d : dict) (k : pname) :
  (forall k', In k' (map fst d) -> model_key k') ->
  dict_get k (model_dict p d) =
  match k with
  | Px => Some (x p + vx p * cos (yaw p) * dt p)
  | Py => Some (y p + vx p * sin (yaw p) * dt p)
  | Pvx => Some (vx p + a p * dt p)
  | Pyaw => Some (yaw p + s p * dt p)
  | _ => None
  end.
Proof.
  intro H. unfold model_dict.
  assert (Hnone : forall k', ~ model_key k' -> dict_get k' d = None).
  { intros k' Hk. unfold dict_get.
    destruct (find _ d) as [[k3 r3]|] eqn:F; [|reflexivity].
    apply find_some in F. destruct F as [Hin Heq]. simpl in Heq.
    apply pname_eqb_eq in Heq. subst k3. elim Hk. apply H.
    change k' with (fst (k', r3)). now apply in_map. }
  destruct k;
    repeat first [ rewrite dict_get_set_same; reflexivity
                 | rewrite dict_get_set_other by discriminate ];
    apply Hnone; unfold model_key; intros [E|[E|[E|E]]]; discriminate.
Qed.

Lemma Params_ext (p q : Params) :
  (forall k, get_param k p = get_param k q) -> pos p = pos q -> p = q.
Proof.
  intros H Hp. destruct p, q. simpl in Hp.
  pose proof (H Px); pose proof (H Py); pose proof (H Pyaw);
  pose proof (H Pvx); pose proof (H Pvy); pose proof (H Pv);
  pose proof (H Pa); pose proof (H Ps); pose proof (H Ptime);
  pose proof (H Pdt). simpl in *. congruence.
Qed.

Lemma update_params (c : Car) (a_ steer dt_ : R) :
  well_formed c ->
  params (update c a_ steer dt_) = updated_params (params c) a_ steer dt_.
Proof.
  intros [Hk Hnd Hpos].
  unfold update, model_. cbn [params nparams histories dpos step_dis total_dis].
  set (p1 := set_param Ptime _ (set_param Pdt dt_ _)).
  set (p2 := set_param Ptime _ p1).
  fold (model_dict p2 (nparams c)).
  unfold params_update.
  set (f := fold_left _ (model_dict p2 (nparams c)) p2).
  assert (Hget : forall k, get_param k f =
            match dict_get k (model_dict p2 (nparams c)) with
            | Some r => r | None => get_param k p2 end).
  { intro k. apply fold_set_param_get. now apply model_dict_NoDup. }
  assert (Hget' : forall k, get_param k f =
            match k with
            | Px => x p2 + vx p2 * cos (yaw p2) * dt p2
            | Py => y p2 + vx p2 * sin (yaw p2) * dt p2
            | Pvx => vx p2 + a p2 * dt p2
            | Pyaw => yaw p2 + s p2 * dt p2
            | _ => get_param k p2
            end).
  { intro k. rewrite Hget, (model_dict_get p2 _ k Hk). now destruct k. }
  assert (Hx := Hget' Px). assert (Hy := Hget' Py).
  assert (Hyaw := Hget' Pyaw). assert (Hvx := Hget' Pvx).
  assert (Hvy := Hget' Pvy). assert (Ha := Hget' Pa).
  assert (Hs := Hget' Ps). assert (Ht := Hget' Ptime).
  assert (Hdt := Hget' Pdt).
  simpl in Hx, Hy, Hyaw, Hvx, Hvy, Ha, Hs, Ht, Hdt.
  apply Params_ext.
  - intro k. destruct k; simpl; try assumption.
    now rewrite Hvx, Hvy.
  - simpl. now rewrite Hx, Hy.
Qed.

Lemma update_nparams (c : Car) (a_ steer dt_ : R) :
  nparams (update c a_ steer dt_) =
  model_dict (set_param Ptime (time (params c) + dt_ + dt_)
                (set_param Pdt dt_
                   (set_param Ps steer (set_param Pa a_ (params c)))))
             (nparams c).
Proof. reflexivity. Qed.

Lemma update_well_formed (c : Car) (a_ steer dt_ : R) :
  well_formed c -> well_formed (update c a_ steer dt_).
Proof.
  intro H. split.
  - rewrite update_nparams. apply model_dict_keys, H.
  - rewrite update_nparams. apply model_dict_NoDup, H.
  - now rewrite (update_params _ _ _ _ H).
Qed.

Lemma update_dpos (c : Car) (a_ steer dt_ : R) :
  well_formed c ->
  dpos (update c a_ steer dt_) =
  Some (pos (params c), pos (params (update c a_ steer dt_))).
Proof.
  intro H. rewrite (update_params _ _ _ _ H).
  destruct H as [Hk Hnd Hpos].
  unfold update, model_. cbn [params nparams histories dpos step_dis total_dis].
  set (p2 := set_param Ptime _ (set_param Ptime _ _)).
  fold (model_dict p2 (nparams c)).
  rewrite !(model_dict_get p2 _ _ Hk). reflexivity.
Qed.

Lemma update_step_dis (c : Car) (a_ steer dt_ : R) :
  well_formed c ->
  step_dis (update c a_ steer dt_) =
  Some (distance (pos (params c)) (pos (params (update c a_ steer dt_)))).
Proof.
  intro H. rewrite (update_params _ _ _ _ H).
  destruct H as [Hk Hnd Hpos].
  unfold update, model_. cbn [params nparams histories dpos step_dis total_dis].
  set (p2 := set_param Ptime _ (set_param Ptime _ _)).
  fold (model_dict p2 (nparams c)).
  rewrite !(model_dict_get p2 _ _ Hk). reflexivity.
Qed.

(** ** The kinematic step *)

(** C1. One call to [Car.update] moves the position by
    [vx*cos(yaw)*dt] and [vx*sin(yaw)*dt], adds [a*dt] to [vx] and
    [steer*dt] to [yaw], leaves [vy] as it is and recomputes the speed [v]
    as [sqrt(vx'^2 + vy^2)]: for every well-formed vehicle, and so for
    the vehicle built from any x, y, yaw, vx and vy.  The vehicle at
    (0,0) with yaw 0 and vx 1,
    updated once with a = 0, steer = 0, dt = 1, ends at (1,0) with the
    yaw and the speed it had, and its [step_dis] is 1. *)
Theorem car_update_kinematics :
  (forall (c : Car) (a_ steer dt_ : R),
      well_formed c ->
      let c' := update c a_ steer dt_ in
      x (params c') = x (params c) + vx (params c) * cos (yaw (params c)) * dt_ /\
      y (params c') = y (params c) + vx (params c) * sin (yaw (params c)) * dt_ /\
      vx (params c') = vx (params c) + a_ * dt_ /\
      yaw (params c') = yaw (params c) + steer * dt_ /\
      vy (params c') = vy (params c) /\
      v (params c') = sqrt (vx (params c') ^ 2 + vy (params c) ^ 2) /\
      pos (params c') = (x (params c'), y (params c'))) /\
  (forall x0 y0 yaw0 vx0 vy0 a_ steer dt_ : R,
      let c := Car_init [(Px, x0); (Py, y0); (Pyaw, yaw0); (Pvx, vx0); (Pvy, vy0)] in
      let c' := update c a_ steer dt_ in
      pos (params c) = (x0, y0) /\
      pos (params c') = (x0 + vx0 * cos yaw0 * dt_, y0 + vx0 * sin yaw0 * dt_) /\
      vx (params c') = vx0 + a_ * dt_ /\
      yaw (params c') = yaw0 + steer * dt_ /\
      vy (params c') = vy0 /\
      v (params c') = sqrt ((vx0 + a_ * dt_) ^ 2 + vy0 ^ 2)) /\
  (let c' := update car_at_origin 0 0 1 in
   pos (params car_at_origin) = (0, 0) /\
   pos (params c') = (1, 0) /\
   yaw (params c') = yaw (params car_at_origin) /\
   v (params c') = v (params car_at_origin) /\
   v (params c') = 1 /\
   step_dis c' = Some 1).
Proof.
  split; [|split].
  - intros c a_ steer dt_ Hwf c'. subst c'.
    rewrite (update_params _ _ _ _ Hwf). simpl. repeat split; reflexivity.
  - intros x0 y0 yaw0 vx0 vy0 a_ steer dt_ c c'. subst c c'.
    rewrite (update_params _ _ _ _ (Car_init_well_formed _)).
    simpl. repeat split; reflexivity.
  - assert (Hwf : well_formed car_at_origin) by apply Car_init_well_formed.
    cbv zeta. rewrite (update_step_dis _ _ _ _ Hwf), (update_params _ _ _ _ Hwf).
    unfold car_at_origin, distance. simpl. rewrite cos_0, sin_0.
    assert (E1 : 1 + 0 * 1 = 1) by ring.
    assert (E2 : 0 + 1 * 1 * 1 = 1) by ring.
    assert (E3 : 0 + 1 * 0 * 1 = 0) by ring.
    assert (E4 : 0 + 0 * 1 = 0) by ring.
    assert (E5 : 1 * (1 * 1) + 0 * (0 * 1) = 1) by ring.
    assert (E6 : (0 - 1) * ((0 - 1) * 1) + (0 - 0) * ((0 - 0) * 1) = 1) by ring.
    rewrite E1, E2, E3, E4, E5, E6, sqrt_1.
    repeat split; reflexivity.
Qed.

Lemma car_update_kinematics_witness :
  well_formed car_at_origin /\
  x (params (update car_at_origin 0 0 1))
  = x (params car_at_origin)
    + vx (params car_at_origin) * cos (yaw (params car_at_origin)) * 1.
Proof.
  split.
  - apply Car_init_well_formed.
  - exact (proj1 (proj1 car_update_kinematics car_at_origin 0 0 1
                    (Car_init_well_formed _))).
Defined.

(** C6. Every call to [Car.update] with timestep [dt] advances the
    elapsed time by [2*dt]: once in [update] before the transition is
    computed and once more in [_model]; the position, the velocity and
    the yaw are advanced with [dt] once. *)
Theorem car_update_time_twice (c : Car) (a_ steer dt_ : R) :
  well_formed c ->
  let before_model :=
    set_param Ptime (time (params c) + dt_)
      (set_param Pdt dt_ (set_param Ps steer (set_param Pa a_ (params c)))) in
  let c' := update c a_ steer dt_ in
  time before_model = time (params c) + dt_ /\
  time (params (model_ (mkCar before_model (nparams c) (histories c)
                              (dpos c) (step_dis c) (total_dis c))))
  = time before_model + dt_ /\
  time (params c') = time (params c) + 2 * dt_ /\
  dt (params c') = dt_ /\
  x (params c') = x (params c) + vx (params c) * cos (yaw (params c)) * dt_ /\
  y (params c') = y (params c) + vx (params c) * sin (yaw (params c)) * dt_ /\
  vx (params c') = vx (params c) + a_ * dt_ /\
  yaw (params c') = yaw (params c) + steer * dt_.
Proof.
  intros Hwf before_model c'. subst c' before_model.
  rewrite (update_params _ _ _ _ Hwf). simpl.
  repeat split; try reflexivity. ring.
Qed.

Lemma car_update_time_twice_witness :
  well_formed car_at_origin /\
  time (params (update car_at_origin 0 0 1)) = time (params car_at_origin) + 2 * 1.
Proof.
  split.
  - apply Car_init_well_formed.
  - exact (proj1 (proj2 (proj2 (car_update_time_twice car_at_origin 0 0 1
                                  (Car_init_well_formed _))))).
Defined.

(** ** Evaluating the comparisons on given numbers *)

Ltac Rsimp := cbn beta iota zeta delta [fst snd negb andb orb].

(** Decide one comparison of the goal with [lra] and take its branch. *)
Ltac Rsplit t P :=
  let H := fresh in
  let r := fresh in
  first [ assert (H : P) by lra; destruct t as [r|r];
          [clear H r | exfalso; lra]
        | assert (H : ~ P) by lra; destruct t as [r|r];
          [exfalso; lra | clear H r] ].

Ltac Rdecide1 :=
  match goal with
  | |- context [Rcase_abs ?u] => Rsplit (Rcase_abs u) (u < 0)
  | |- context [Rlt_dec ?u ?w] => Rsplit (Rlt_dec u w) (u < w)
  | |- context [Rle_dec ?u ?w] => Rsplit (Rle_dec u w) (u <= w)
  | |- context [Req_dec_T ?u ?w] => Rsplit (Req_dec_T u w) (u = w)
  end.

Ltac Rdecide := Rsimp; repeat (Rdecide1; Rsimp).

Ltac unfold_geometry :=
  unfold is_collision, is_collision_step, crossing, cal_crosspoint, is_online,
    close_to, Rgeb, Rleb, Rltb, Reqb, sign, Rabs, tol, psub.

(** The worked example of the kernel: the two diagonals of a square
    cross in its centre. *)
Lemma crossing_diagonals :
  crossing ((0, 0), (10, 10)) ((0, 10), (10, 0)) = (true, (5, 5)).
Proof.
  unfold_geometry. Rdecide. repeat f_equal; lra.
Qed.

(** ** The geometry kernel *)

Lemma Reqb_true (r1 r2 : R) : Reqb r1 r2 = true <-> r1 = r2.
Proof. unfold Reqb. destruct (Req_dec_T r1 r2); split; congruence. Qed.

Lemma Reqb_false (r1 r2 : R) : Reqb r1 r2 = false <-> r1 <> r2.
Proof. unfold Reqb. destruct (Req_dec_T r1 r2); split; congruence. Qed.

Lemma Rltb_true (r1 r2 : R) : Rltb r1 r2 = true <-> r1 < r2.
Proof. unfold Rltb. destruct (Rlt_dec r1 r2); split; congruence. Qed.

Lemma Rltb_false (r1 r2 : R) : Rltb r1 r2 = false <-> r2 <= r1.
Proof.
  unfold Rltb. destruct (Rlt_dec r1 r2); split; try congruence; lra.
Qed.

Lemma Rleb_true (r1 r2 : R) : Rleb r1 r2 = true <-> r1 <= r2.
Proof. unfold Rleb. destruct (Rle_dec r1 r2); split; congruence. Qed.

Lemma Rleb_false (r1 r2 : R) : Rleb r1 r2 = false <-> r2 < r1.
Proof.
  unfold Rleb. destruct (Rle_dec r1 r2); split; try congruence; lra.
Qed.

Lemma crossing_unfold (line1 line2 : line) :
  crossing line1 line2 =
  (fst (cal_crosspoint line1 line2)
   && is_online line1 (snd (cal_crosspoint line1 line2))
   && is_online line2 (snd (cal_crosspoint line1 line2)),
   snd (cal_crosspoint line1 line2)).
Proof.
  unfold crossing. destruct (cal_crosspoint line1 line2) as [flag cp]. simpl.
  destruct flag, (is_online line1 cp), (is_online line2 cp); reflexivity.
Qed.

Lemma cal_crosspoint_on_lines (line1 line2 : line) (p : point) :
  cal_crosspoint line1 line2 = (true, p) -> on_line line1 p /\ on_line line2 p.
Proof.
  destruct line1 as [[x1 y1] [x2 y2]], line2 as [[x3 y3] [x4 y4]].
  unfold cal_crosspoint, on_line. simpl.
  destruct (Reqb x1 x2) eqn:E12; destruct (Reqb x3 x4) eqn:E34; simpl.
  - discriminate.
  - apply Reqb_true in E12. apply Reqb_false in E34.
    intro H. injection H as <-. simpl. subst x2. split; [ring|].
    field. lra.
  - apply Reqb_false in E12. apply Reqb_true in E34.
    intro H. injection H as <-. simpl. subst x4. split; [|ring].
    field. lra.
  - apply Reqb_false in E12. apply Reqb_false in E34.
    destruct (Reqb _ _) eqn:Ea; [discriminate|].
    apply Reqb_false in Ea.
    intro H. injection H as <-. simpl.
    assert (Hd : (y2 - y1) / (x2 - x1) - (y4 - y3) / (x4 - x3) <> 0) by lra.
    assert (Hd' : (y2 - y1) * (x4 - x3) - (y4 - y3) * (x2 - x1) <> 0).
    { intro H0. apply Hd. field_simplify_eq; [|lra]. lra. }
    split; field; (repeat split; try lra).
Qed.

Lemma cal_crosspoint_parallel (line1 line2 : line) :
  parallel line1 line2 -> cal_crosspoint line1 line2 = (false, (0, 0)).
Proof.
  destruct line1 as [[x1 y1] [x2 y2]], line2 as [[x3 y3] [x4 y4]].
  unfold parallel, vertical, slope, cal_crosspoint. simpl.
  intros [[H1 H2]|[H1 [H2 Hs]]].
  - apply Reqb_true in H1, H2. now rewrite H1, H2.
  - apply Reqb_false in H1, H2. rewrite H1, H2. simpl.
    apply Reqb_true in Hs. now rewrite Hs.
Qed.

(** The kernel in binary64. *)

Lemma crossing_f64_unfold (line1 line2 : F64.line) :
  F64.crossing line1 line2 =
  (fst (F64.cal_crosspoint line1 line2)
   && F64.is_online line1 (snd (F64.cal_crosspoint line1 line2))
   && F64.is_online line2 (snd (F64.cal_crosspoint line1 line2)),
   snd (F64.cal_crosspoint line1 line2)).
Proof.
  unfold F64.crossing.
  destruct (F64.cal_crosspoint line1 line2) as [flag cp]. simpl.
  destruct flag, (F64.is_online line1 cp), (F64.is_online line2 cp);
    reflexivity.
Qed.

Lemma cal_crosspoint_f64_flag (line1 line2 : F64.line) :
  fst (F64.cal_crosspoint line1 line2) = negb (compared_parallel line1 line2).
Proof.
  destruct line1 as [[x1 y1] [x2 y2]], line2 as [[x3 y3] [x4 y4]].
  unfold F64.cal_crosspoint, compared_parallel, f64_vertical, f64_slope.
  cbn [fst snd].
  destruct (x1 =? x2)%float, (x3 =? x4)%float; cbn [andb orb negb fst];
    try reflexivity.
  destruct (_ =? _)%float; reflexivity.
Qed.

Lemma cal_crosspoint_f64_parallel (line1 line2 : F64.line) :
  compared_parallel line1 line2 = true ->
  F64.cal_crosspoint line1 line2 = (false, (0, 0)%float).
Proof.
  destruct line1 as [[x1 y1] [x2 y2]], line2 as [[x3 y3] [x4 y4]].
  unfold F64.cal_crosspoint, compared_parallel, f64_vertical, f64_slope.
  cbn [fst snd].
  destruct (x1 =? x2)%float, (x3 =? x4)%float; cbn [andb orb negb];
    try reflexivity; try discriminate.
  destruct (_ =? _)%float; [reflexivity | discriminate].
Qed.

Lemma crossing_f64_true (line1 line2 : F64.line) (p : F64.point) :
  F64.crossing line1 line2 = (true, p) ->
  F64.cal_crosspoint line1 line2 = (true, p) /\
  F64.is_online line1 p = true /\ F64.is_online line2 p = true.
Proof.
  rewrite crossing_f64_unfold.
  destruct (F64.cal_crosspoint line1 line2) as [flag cp]. cbn [fst snd].
  intro H. injection H as H <-.
  apply andb_prop in H. destruct H as [H H2].
  apply andb_prop in H. destruct H as [H0 H1].
  now rewrite H0.
Qed.




(** ** The ranging fan *)

Lemma nearest_fst (pos_ : point) (points : list point) (d : R) (pt : option point) :
  fst (nearest pos_ points d pt) = min_dist pos_ points d.
Proof.
  unfold nearest, min_dist. revert d pt.
  induction points as [|p points IH]; intros d pt; simpl; [reflexivity|].
  destruct (Rltb (distance pos_ p) d) eqn:E.
  - apply Rltb_true in E. rewrite IH. f_equal.
    unfold Rmin. destruct (Rle_dec d (distance pos_ p)); [lra|reflexivity].
  - apply Rltb_false in E. rewrite IH. f_equal.
    unfold Rmin. destruct (Rle_dec d (distance pos_ p)); [reflexivity|lra].
Qed.

Lemma min_dist_le (pos_ : point) (points : list point) (d : R) :
  min_dist pos_ points d <= d /\
  forall p, In p points -> min_dist pos_ points d <= distance pos_ p.
Proof.
  unfold min_dist. revert d.
  induction points as [|q points IH]; intro d; simpl.
  - split; [lra | intros p []].
  - destruct (IH (Rmin d (distance pos_ q))) as [H1 H2].
    pose proof (Rmin_l d (distance pos_ q)).
    pose proof (Rmin_r d (distance pos_ q)).
    split; [lra|]. intros p [<-|Hin]; [lra | now apply H2].
Qed.

Lemma nearest_none (pos_ : point) (points : list point) (d : R) (pt : option point) :
  (forall p, In p points -> d <= distance pos_ p) ->
  nearest pos_ points d pt = (d, pt).
Proof.
  unfold nearest. revert d pt.
  induction points as [|q points IH]; intros d pt H; simpl; [reflexivity|].
  assert (E : Rltb (distance pos_ q) d = false).
  { apply Rltb_false, H. now left. }
  rewrite E. apply IH. intros p Hp. apply H. now right.
Qed.

Lemma nearer_or_not (pos_ : point) (points : list point) (d : R) :
  (forall p, In p points -> d <= distance pos_ p) \/
  (exists p, In p points /\ distance pos_ p < d).
Proof.
  induction points as [|q points [IH|[p [Hp Hlt]]]].
  - left. intros p [].
  - destruct (Rle_lt_dec d (distance pos_ q)) as [Hle|Hlt].
    + left. intros p [<-|Hp]; [exact Hle | now apply IH].
    + right. exists q. split; [now left | exact Hlt].
  - right. exists p. split; [now right | exact Hlt].
Qed.

Lemma nearest_some (pos_ : point) (points : list point) (d : R) (pt : option point) :
  (exists p, In p points /\ distance pos_ p < d) ->
  exists q, nearest pos_ points d pt = (distance pos_ q, Some q) /\
            In q points /\ distance pos_ q < d.
Proof.
  unfold nearest. revert d pt.
  induction points as [|q points IH]; intros d pt [p [Hp Hlt]].
  - destruct Hp.
  - simpl.
    destruct (Rltb (distance pos_ q) d) eqn:E.
    + apply Rltb_true in E.
      destruct (nearer_or_not pos_ points (distance pos_ q)) as [Hno|Hyes].
      * exists q. split; [|split; [now left | exact E]].
        now apply (nearest_none pos_ points).
      * destruct (IH _ (Some q) Hyes) as [q' [H1 [H2 H3]]].
        exists q'. split; [exact H1 | split; [now right | lra]].
    + apply Rltb_false in E.
      destruct Hp as [<-|Hp]; [lra|].
      destruct (IH d pt) as [q' [H1 [H2 H3]]].
      { exists p. now split. }
      exists q'. split; [exact H1 | split; [now right | exact H3]].
Qed.

Lemma list_set_length {A : Type} (l l' : list A) (i : nat) (v : A) :
  list_set l i v = Ok l' -> length l' = length l /\ (i < length l)%nat.
Proof.
  revert l' i. induction l as [|h t IH]; intros l' i; simpl.
  - discriminate.
  - destruct i as [|j].
    + intro H. injection H as <-. simpl. split; lia.
    + destruct (list_set t j v) as [t'|e] eqn:E; simpl; [|discriminate].
      intro H. injection H as <-. destruct (IH _ _ E). simpl. split; lia.
Qed.

Lemma list_set_nth {A : Type} (l l' : list A) (i : nat) (v : A) :
  list_set l i v = Ok l' ->
  forall j, nth_error l' j = if Nat.eqb j i then Some v else nth_error l j.
Proof.
  revert l' i. induction l as [|h t IH]; intros l' i; simpl.
  - discriminate.
  - destruct i as [|k].
    + intro H. injection H as <-. intros [|j]; reflexivity.
    + destruct (list_set t k v) as [t'|e] eqn:E; simpl; [|discriminate].
      intro H. injection H as <-. intros [|j]; simpl; [reflexivity|].
      now apply IH.
Qed.

Lemma list_set_ok {A : Type} (l : list A) (i : nat) (v : A) :
  (i < length l)%nat -> exists l', list_set l i v = Ok l'.
Proof.
  revert i. induction l as [|h t IH]; intros i Hi; simpl in *; [lia|].
  destruct i as [|j].
  - now eexists.
  - destruct (IH j) as [t' Ht]; [lia|]. rewrite Ht. simpl. now eexists.
Qed.

Lemma nth_nth_error {A : Type} (l : list A) (j : nat) (d : A) :
  nth j l d = match nth_error l j with Some v => v | None => d end.
Proof.
  revert j. induction l as [|h t IH]; intros [|j]; simpl; try reflexivity.
  apply IH.
Qed.

(** One ray: the reading appended by the body of the loop. *)
Lemma make_line_body_spec (l : LiDAR) (m : MAP) (pos_ : point)
  (st st' : rays) (i : nat) (ang : R) :
  make_line_body l m pos_ st i ang = Ok st' ->
  exists e d,
    line_end_pos st' = line_end_pos st ++ [e] /\
    line_distaces st' = line_distaces st ++ [d] /\
    length (line_reaches_wall st') = length (line_reaches_wall st) /\
    (forall j, j <> i ->
               nth j (line_reaches_wall st') false
               = nth j (line_reaches_wall st) false) /\
    (nth i (line_reaches_wall st) false = false ->
     reading_ok l m pos_ ang e (nth i (line_reaches_wall st') false) d).
Proof.
  unfold make_line_body, reading_ok. fold (probe l pos_ ang).
  destruct (is_collision m (probe l pos_ ang)) as [flag points].
  destruct flag.
  - destruct (list_set (line_reaches_wall st) i true) as [reaches|err] eqn:Hset;
      simpl; [|discriminate].
    destruct (nearest pos_ points (line_len l) (point_var st)) as [ld pt] eqn:Hn.
    simpl. destruct pt as [p|]; [|discriminate].
    intro H. injection H as <-. simpl.
    assert (Hf : ld = min_dist pos_ points (line_len l)).
    { pose proof (nearest_fst pos_ points (line_len l) (point_var st)) as Hf.
      now rewrite Hn in Hf. }
    exists p, ld.
    split; [reflexivity|]. split; [reflexivity|].
    split; [now apply list_set_length in Hset|].
    split.
    { intros j Hj. rewrite !nth_nth_error, (list_set_nth _ _ _ _ Hset).
      apply Nat.eqb_neq in Hj. now rewrite Hj. }
    intros _. split.
    { rewrite nth_nth_error, (list_set_nth _ _ _ _ Hset).
      now rewrite Nat.eqb_refl. }
    split; [discriminate|].
    intros _. split; [exact Hf|]. intro Hex.
    destruct (nearest_some pos_ points (line_len l) (point_var st) Hex)
      as [q [Hq [Hin _]]].
    rewrite Hn in Hq. injection Hq as Hld Hpq. subst q.
    split; [exact Hin|]. split; [now symmetry|].
    intros p' Hp'. rewrite Hf. now apply min_dist_le.
  - simpl. intro H. injection H as <-. simpl.
    exists (fst (probe l pos_ ang)), (line_len l).
    split; [reflexivity|]. split; [reflexivity|]. split; [reflexivity|].
    split; [reflexivity|].
    intro Hi. split; [exact Hi|]. split; [now split | discriminate].
Qed.

(** The loop over the rays appends one reading per ray and sets only the
    flags of the rays it visits. *)
Lemma make_line_loop_spec (l : LiDAR) (m : MAP) (pos_ : point)
  (angs : list R) :
  forall (st st' : rays) (i : nat),
    make_line_loop l m pos_ st i angs = Ok st' ->
    (forall j, (i <= j)%nat -> nth j (line_reaches_wall st) false = false) ->
    exists ends dists,
      line_end_pos st' = line_end_pos st ++ ends /\
      line_distaces st' = line_distaces st ++ dists /\
      length ends = length angs /\
      length dists = length angs /\
      length (line_reaches_wall st') = length (line_reaches_wall st) /\
      (forall j, (j < i)%nat ->
                 nth j (line_reaches_wall st') false
                 = nth j (line_reaches_wall st) false) /\
      (forall j ang, nth_error angs j = Some ang ->
         exists e d,
           nth_error ends j = Some e /\ nth_error dists j = Some d /\
           reading_ok l m pos_ ang e (nth (i + j) (line_reaches_wall st') false) d).
Proof.
  induction angs as [|ang angs IH]; intros st st' i Hloop Hfalse; simpl in Hloop.
  - injection Hloop as <-. exists [], []. rewrite !app_nil_r.
    repeat split; try reflexivity. intros [|j] ang H; discriminate.
  - destruct (make_line_body l m pos_ st i ang) as [st1|err] eqn:Hbody;
      simpl in Hloop; [|discriminate].
    destruct (make_line_body_spec _ _ _ _ _ _ _ Hbody)
      as [e [d [He [Hd [Hlen [Hother Hread]]]]]].
    destruct (IH _ _ _ Hloop) as [ends [dists [He' [Hd' [Hle [Hld [Hlen' [Hkeep Hrest]]]]]]]].
    { intros j Hj. rewrite Hother by lia. apply Hfalse. lia. }
    exists (e :: ends), (d :: dists).
    rewrite He', Hd', He, Hd, <- !app_assoc. simpl.
    repeat split; try reflexivity; try lia.
    + intros j Hj. rewrite Hkeep by lia. apply Hother. lia.
    + intros [|j] ang' Hnth; simpl in Hnth.
      * injection Hnth as <-. exists e, d. repeat split.
        rewrite Nat.add_0_r, Hkeep by lia. apply Hread, Hfalse. lia.
      * destruct (Hrest j ang' Hnth) as [e' [d' [H1 [H2 H3]]]].
        exists e', d'. repeat split; try assumption.
        now replace (i + S j)%nat with (S i + j)%nat by lia.
Qed.

Lemma make_line_lengths (l : LiDAR) (c : Car) (m : MAP)
  (ends : list point) (flags : list bool) (dists : list R) :
  make_line l c m = Ok (ends, flags, dists) ->
  length dists = length (sensor_angles_std l).
Proof.
  unfold make_line.
  destruct (make_line_loop _ _ _ _ _ _) as [st|err] eqn:Hloop; simpl; [|discriminate].
  intro H. injection H as <- <- <-.
  destruct (make_line_loop_spec _ _ _ _ _ _ _ Hloop)
    as [ends [dists [_ [Hd [_ [Hld _]]]]]].
  { intros j _. simpl. rewrite nth_nth_error.
    destruct (nth_error _ j) as [b|] eqn:E; [|reflexivity].
    apply nth_error_In, repeat_spec in E. exact E. }
  simpl in Hd. rewrite length_map in Hld. now rewrite Hd.
Qed.

(** Without walls nothing is hit. *)
Lemma is_collision_no_walls (m : MAP) (ln : line) :
  lines m = [] -> is_collision m ln = (false, []).
Proof. intro H. unfold is_collision. now rewrite H. Qed.

Lemma make_line_loop_no_walls (l : LiDAR) (m : MAP) (pos_ : point)
  (angs : list R) :
  lines m = [] ->
  forall (st : rays) (i : nat),
  exists st',
    make_line_loop l m pos_ st i angs = Ok st' /\
    line_reaches_wall st' = line_reaches_wall st /\
    length (line_distaces st') = (length (line_distaces st) + length angs)%nat.
Proof.
  intro Hm. induction angs as [|ang angs IH]; intros st i; simpl.
  - exists st. repeat split. lia.
  - unfold make_line_body. rewrite (is_collision_no_walls _ _ Hm). simpl.
    match goal with |- context [make_line_loop l m pos_ ?s (S i) angs] =>
      destruct (IH s (S i)) as [st' [H1 [H2 H3]]] end.
    exists st'. split; [exact H1|]. split; [exact H2|].
    rewrite H3. simpl. rewrite length_app. simpl. lia.
Qed.

Lemma make_line_no_walls (l : LiDAR) (c : Car) (m : MAP) :
  lines m = [] ->
  exists ends dists,
    make_line l c m = Ok (ends, repeat false (sensor_num l), dists) /\
    length dists = length (sensor_angles_std l).
Proof.
  intro Hm. unfold make_line.
  match goal with |- context [make_line_loop l m ?p ?s 0%nat ?a] =>
    destruct (make_line_loop_no_walls l m p a Hm s 0%nat) as [st' [H1 [H2 H3]]] end.
  rewrite H1. simpl. exists (line_end_pos st'), (line_distaces st').
  rewrite H2. simpl. split; [reflexivity|].
  rewrite H3. simpl. now rewrite length_map.
Qed.

(** ** The rollout *)

Section EpisodeProperties.

Variable max_number_of_steps : nat.
Variable model : list R -> list R.
Variable choice : nat -> list R -> nat.
Variable lidar : LiDAR.
Variable Map : MAP.

Local Notation "'body'" :=
  (episode_body max_number_of_steps model choice lidar Map).
Local Notation "'loop'" :=
  (episode_loop max_number_of_steps model choice lidar Map).

(** What one successful iteration of the loop did. *)
Lemma episode_body_inv (st st' : rollout) :
  body st = Ok st' ->
  exists points flags dists act one_hot,
    make_line lidar (ep_car st) Map = Ok (points, flags, dists) /\
    dicide_action (choice (length (experiences st))
                          (model (dists ++ [vx (params (ep_car st))])))
    = Ok (act, one_hot) /\
    ep_car st' = next_car st act /\
    experiences st' = experiences st ++ [step_entry max_number_of_steps model Map st dists act one_hot] /\
    ep_done st' = step_done max_number_of_steps Map st act /\
    ep_step st' = S (ep_step st) /\
    list_set (pi_list st) (ep_step st)
             (Some (dot (model (dists ++ [vx (params (ep_car st))])) one_hot))
    = Ok (pi_list st') /\
    list_set (reward_list st) (ep_step st) (Some (step_reward Map st act))
    = Ok (reward_list st').
Proof.
  unfold episode_body.
  destruct (make_line lidar (ep_car st) Map) as [[[points flags] dists]|err];
    cbn [bind]; [|discriminate].
  destruct (dicide_action _) as [[act one_hot]|err] eqn:Hact;
    cbn [bind]; [|discriminate].
  set (car := update (ep_car st) (act_a act) (act_steer act) (act_dt act)).
  assert (Hsd : exists r, step_dis car = Some r) by (now eexists).
  assert (Hdp : exists d, dpos car = Some d) by (now eexists).
  destruct Hsd as [r Hr]. destruct Hdp as [d Hd]. rewrite Hr, Hd.
  destruct (is_collision Map d) as [flag cp] eqn:Hcol. cbn [fst].
  destruct flag; cbn [sd_output sd_one_hot sd_reward].
  - destruct (list_set (pi_list st) _ _) as [pl|err] eqn:Hpl;
      cbn [bind]; [|discriminate].
    destruct (list_set (reward_list st) _ _) as [rl|err] eqn:Hrl;
      cbn [bind]; [|discriminate].
    intro H. injection H as <-.
    cbn [ep_car experiences ep_done ep_step pi_list reward_list].
    exists points, flags, dists, act, one_hot.
    unfold step_entry, step_done, step_reward, collided, budget_reached, next_car.
    fold car. rewrite Hd, Hr, Hcol. cbn [fst].
    repeat split; first [reflexivity | exact Hact | exact Hpl | exact Hrl].
  - destruct (list_set (pi_list st) _ _) as [pl|err] eqn:Hpl;
      cbn [bind]; [|discriminate].
    destruct (list_set (reward_list st) _ _) as [rl|err] eqn:Hrl;
      cbn [bind]; [|discriminate].
    intro H. injection H as <-.
    cbn [ep_car experiences ep_done ep_step pi_list reward_list].
    exists points, flags, dists, act, one_hot.
    unfold step_entry, step_done, step_reward, collided, budget_reached, next_car.
    fold car. rewrite Hd, Hr, Hcol. cbn [fst].
    repeat split; first [reflexivity | exact Hact | exact Hpl | exact Hrl].
Qed.

Lemma list_set_markers (vals : list R) (k : nat) (v : R) (l' : list (option R)) :
  list_set (map Some vals ++ repeat None k) (length vals) (Some v) = Ok l' ->
  exists k', k = S k' /\ l' = map Some (vals ++ [v]) ++ repeat None k'.
Proof.
  revert l'. induction vals as [|h t IH]; intros l'; simpl.
  - destruct k as [|k']; simpl; [discriminate|].
    intro H. injection H as <-. now exists k'.
  - destruct (list_set _ _ _) as [t'|err] eqn:E; simpl; [|discriminate].
    intro H. injection H as <-.
    destruct (IH _ eq_refl) as [k' [-> ->]]. now exists k'.
Qed.

Lemma list_set_padded (vals : list R) (n : nat) (v : R) (l' : list (option R)) :
  list_set (padded vals n) (length vals) (Some v) = Ok l' ->
  l' = padded (vals ++ [v]) n /\ (length vals < n)%nat.
Proof.
  unfold padded. intro H.
  destruct (list_set_markers _ _ _ _ H) as [k' [Hk ->]].
  rewrite length_app. simpl. split; [|lia].
  do 2 f_equal. lia.
Qed.

Lemma list_set_padded_ok (vals : list R) (n k : nat) (v : R) :
  k = length vals -> (k < n)%nat ->
  list_set (padded vals n) k (Some v) = Ok (padded (vals ++ [v]) n).
Proof.
  intros -> Hlt.
  destruct (list_set_ok (padded vals n) (length vals) (Some v)) as [l' Hl'].
  { unfold padded. rewrite length_app, length_map, repeat_length. lia. }
  rewrite Hl'. f_equal. now apply list_set_padded in Hl'.
Qed.

Lemma rollout_inv_start (car : Car) :
  rollout_inv max_number_of_steps (episode_start max_number_of_steps car).
Proof.
  split; simpl; try reflexivity.
  - lia.
  - unfold padded. simpl. now rewrite Nat.sub_0_r.
  - unfold padded. simpl. now rewrite Nat.sub_0_r.
  - intros _. constructor.
  - discriminate.
Qed.

Lemma rollout_inv_body (st st' : rollout) :
  rollout_inv max_number_of_steps st -> ep_done st = false -> body st = Ok st' -> rollout_inv max_number_of_steps st'.
Proof.
  intros [Hstep Hlen Hpi Hrew Hrun _] Hnd Hbody.
  destruct (episode_body_inv _ _ Hbody)
    as [points [flags [dists [act [oh [Hml [Hact [Hcar [Hexp [Hdone [Hst [Hpl Hrl]]]]]]]]]]]].
  rewrite Hstep, Hrew in Hrl. rewrite Hstep, Hpi in Hpl.
  rewrite <- (length_map sd_reward) in Hrl.
  rewrite <- (length_map pi_of) in Hpl.
  apply list_set_padded in Hrl. apply list_set_padded in Hpl.
  destruct Hrl as [Hrl Hlt]. destruct Hpl as [Hpl _].
  rewrite length_map in Hlt.
  split.
  - rewrite Hst, Hexp, length_app, Hstep. simpl. lia.
  - rewrite Hexp, length_app. simpl. lia.
  - now rewrite Hpl, Hexp, map_app.
  - now rewrite Hrl, Hexp, map_app.
  - rewrite Hdone, Hexp. intro Hd. apply Forall_app. split; [now apply Hrun|].
    constructor; [exact Hd | constructor].
  - rewrite Hdone, Hexp. intro Hd.
    exists (experiences st), (step_entry max_number_of_steps model Map st dists act oh).
    split; [reflexivity|]. split; [exact Hd | now apply Hrun].
Qed.

(** The loop returns only a finished rollout, reached by appending
    steps. *)
Lemma episode_loop_inv (fuel : nat) :
  forall st st' : rollout,
    rollout_inv max_number_of_steps st -> loop fuel st = Ok st' ->
    rollout_inv max_number_of_steps st' /\ ep_done st' = true /\
    exists added, experiences st' = experiences st ++ added.
Proof.
  induction fuel as [|fuel IH]; intros st st' Hinv; simpl.
  - destruct (ep_done st) eqn:Hd; [|discriminate].
    intro H. injection H as <-.
    split; [exact Hinv|]. split; [exact Hd|].
    exists []. now rewrite app_nil_r.
  - destruct (ep_done st) eqn:Hd.
    + intro H. injection H as <-.
      split; [exact Hinv|]. split; [exact Hd|].
      exists []. now rewrite app_nil_r.
    + destruct (body st) as [st1|err] eqn:Hbody; simpl; [|discriminate].
      intro Hloop.
      destruct (IH _ _ (rollout_inv_body _ _ Hinv Hd Hbody) Hloop)
        as [Hinv' [Hd' [added Hadd]]].
      split; [exact Hinv'|]. split; [exact Hd'|].
      destruct (episode_body_inv _ _ Hbody)
        as [_ [_ [dists [act [oh [_ [_ [_ [Hexp _]]]]]]]]].
      exists (step_entry max_number_of_steps model Map st dists act oh :: added).
      now rewrite Hadd, Hexp, <- app_assoc.
Qed.

(** *** Rollouts without walls *)

Lemma dicide_action_ok (n : nat) :
  (n < NUM_ACTIONS)%nat -> exists act oh, dicide_action n = Ok (act, oh).
Proof.
  intro Hn. unfold dicide_action.
  destruct (nth_error ACTION_LIST n) as [[steer a_]|] eqn:E.
  - now eexists; eexists.
  - apply nth_error_None in E. unfold NUM_ACTIONS in Hn. lia.
Qed.

Lemma collided_no_walls (st : rollout) (act : action) :
  lines Map = [] -> collided Map st act = false.
Proof.
  intro Hm. unfold collided.
  destruct (dpos _); [|reflexivity].
  now rewrite (is_collision_no_walls _ _ Hm).
Qed.

Lemma episode_body_no_walls (st : rollout) :
  lines Map = [] ->
  (forall k p, (choice k p < NUM_ACTIONS)%nat) ->
  rollout_inv max_number_of_steps st ->
  (length (experiences st) < max_number_of_steps)%nat ->
  exists st',
    body st = Ok st' /\
    length (experiences st') = S (length (experiences st)) /\
    ep_done st' = (if budget_reached max_number_of_steps st then true else ep_done st).
Proof.
  intros Hm Hch [Hstep Hlen Hpi Hrew _ _] Hlt.
  unfold episode_body.
  destruct (make_line_no_walls lidar (ep_car st) Map Hm) as [ends [dists [Hml _]]].
  rewrite Hml. cbn [bind].
  destruct (dicide_action_ok _ (Hch (length (experiences st))
              (model (dists ++ [vx (params (ep_car st))])))) as [act [oh Hact]].
  rewrite Hact. cbn [bind].
  set (car := update (ep_car st) (act_a act) (act_steer act) (act_dt act)).
  assert (Hsd : exists r, step_dis car = Some r) by (now eexists).
  assert (Hdp : exists d, dpos car = Some d) by (now eexists).
  destruct Hsd as [r Hr]. destruct Hdp as [d Hd]. rewrite Hr, Hd.
  rewrite (is_collision_no_walls _ _ Hm).
  cbn [sd_output sd_one_hot sd_reward].
  rewrite Hstep, Hpi, Hrew.
  rewrite list_set_padded_ok by (rewrite ?length_map; auto). cbn [bind].
  rewrite list_set_padded_ok by (rewrite ?length_map; auto). cbn [bind].
  eexists. split; [reflexivity|].
  cbn [experiences ep_done]. rewrite length_app. simpl.
  split; [lia | reflexivity].
Qed.

Lemma episode_loop_no_walls (fuel : nat) :
  lines Map = [] ->
  (forall k p, (choice k p < NUM_ACTIONS)%nat) ->
  forall st : rollout,
    rollout_inv max_number_of_steps st -> ep_done st = false ->
    (length (experiences st) < max_number_of_steps)%nat ->
    (max_number_of_steps - length (experiences st) <= fuel)%nat ->
    exists st',
      loop fuel st = Ok st' /\
      length (experiences st') = max_number_of_steps.
Proof.
  intros Hm Hch. induction fuel as [|fuel IH]; intros st Hinv Hnd Hlt Hfuel.
  - lia.
  - simpl. rewrite Hnd.
    destruct (episode_body_no_walls st Hm Hch Hinv Hlt) as [st1 [Hbody [Hlen Hdone]]].
    rewrite Hbody. cbn [bind].
    unfold budget_reached in Hdone. rewrite Hnd in Hdone.
    destruct (Z.leb_spec (Z.of_nat max_number_of_steps - 1)
                         (Z.of_nat (length (experiences st)))) as [Hb|Hb].
    + exists st1. split; [|lia].
      destruct fuel; simpl; now rewrite Hdone.
    + apply IH; try assumption; try lia.
      now apply (rollout_inv_body st).
Qed.

End EpisodeProperties.

(** ** Sensors built by [LiDAR.__init__] *)

Lemma LiDAR_init_ref : LiDAR_init 180 sensor_num_ref 30 (1 / 10) = Ok lidar_ref.
Proof.
  unfold LiDAR_init. cbn [sensor_num_ref Z.of_nat Z.sub Z.eqb].
  replace (Z.of_nat 15 - 1 =? 0)%Z with false by reflexivity.
  assert (E : Reqb (1 / 10) 0 = false) by (apply Reqb_false; lra).
  now rewrite E.
Qed.

Lemma LiDAR_init_shape (sensor_angle_max : R) (n : nat) (len delta : R)
  (l : LiDAR) :
  LiDAR_init sensor_angle_max n len delta = Ok l ->
  sensor_num l = n /\ length (sensor_angles_std l) = n /\ line_len l = len.
Proof.
  unfold LiDAR_init. destruct (_ =? _)%Z; [discriminate|].
  destruct (Reqb delta 0); [discriminate|].
  intro H. injection H as <-. simpl.
  now rewrite !length_map, length_seq.
Qed.

(** C2. In a map without walls the loop of the rollout terminates: with
    any bound of at least [max_number_of_steps] iterations the rollout
    returns; no step takes the collision branch, the done flag is set at
    the last step only, and the step log and the returned length are
    exactly [max_number_of_steps]. *)
Theorem rollout_without_walls_times_out
  (max_number_of_steps : nat) (model : list R -> list R)
  (choice : nat -> list R -> nat) (lidar : LiDAR) (Map : MAP)
  (car : Car) (fuel : nat) :
  lines Map = [] ->
  (0 < max_number_of_steps)%nat ->
  (forall k p, (choice k p < NUM_ACTIONS)%nat) ->
  (max_number_of_steps <= fuel)%nat ->
  exists st,
    episode max_number_of_steps model choice lidar Map fuel car = Ok st /\
    length (experiences st) = max_number_of_steps /\
    ep_step st = max_number_of_steps /\
    ep_done st = true /\
    (forall st0 act, collided Map st0 act = false) /\
    (forall ln, is_collision Map ln = (false, [])) /\
    exists pre e,
      experiences st = pre ++ [e] /\ sd_done e = true /\
      Forall (fun e' => sd_done e' = false) pre.
Proof.
  intros Hm Hmax Hch Hfuel.
  pose proof (rollout_inv_start max_number_of_steps car) as Hinv0.
  destruct (episode_loop_no_walls max_number_of_steps model choice lidar Map
              fuel Hm Hch _ Hinv0 eq_refl) as [st [Hloop Hlen]].
  { simpl. exact Hmax. }
  { simpl. lia. }
  exists st. split; [exact Hloop|].
  destruct (episode_loop_inv _ _ _ _ _ _ _ _ Hinv0 Hloop) as [Hinv [Hdone _]].
  split; [exact Hlen|].
  split; [now rewrite (inv_step _ _ Hinv)|].
  split; [exact Hdone|].
  split; [intros st0 act; now apply collided_no_walls|].
  split; [intro ln; now apply is_collision_no_walls|].
  exact (inv_done _ _ Hinv Hdone).
Qed.

Lemma rollout_without_walls_times_out_witness :
  lines no_walls = [] /\
  (0 < max_number_of_steps_ref)%nat /\
  (forall k p, (always_straight k p < NUM_ACTIONS)%nat) /\
  exists st,
    episode max_number_of_steps_ref uniform_model always_straight lidar_ref
            no_walls max_number_of_steps_ref car_at_origin = Ok st /\
    length (experiences st) = max_number_of_steps_ref.
Proof.
  assert (H1 : lines no_walls = []) by reflexivity.
  assert (H2 : (0 < max_number_of_steps_ref)%nat)
    by (unfold max_number_of_steps_ref; lia).
  assert (H3 : forall k p, (always_straight k p < NUM_ACTIONS)%nat)
    by (intros k p; unfold always_straight, NUM_ACTIONS; simpl; lia).
  split; [exact H1|]. split; [exact H2|]. split; [exact H3|].
  destruct (rollout_without_walls_times_out max_number_of_steps_ref
              uniform_model always_straight lidar_ref no_walls car_at_origin
              max_number_of_steps_ref H1 H2 H3 (le_n _)) as [st [Hst [Hlen _]]].
  exists st. split; [exact Hst | exact Hlen].
Defined.

(** C9. At every step of the rollout the vector given to the policy is
    the distances of the rays followed by the forward speed [vx] of the
    vehicle before the step; its length is the number of rays plus one,
    which is 16 in the reference configuration. *)
Theorem observation_is_distances_and_speed
  (max_number_of_steps : nat) (model : list R -> list R)
  (choice : nat -> list R -> nat) (lidar : LiDAR) (Map : MAP)
  (sensor_angle_max : R) (n : nat) (len delta : R) (st st' : rollout) :
  LiDAR_init sensor_angle_max n len delta = Ok lidar ->
  episode_body max_number_of_steps model choice lidar Map st = Ok st' ->
  (exists points flags dists e,
     make_line lidar (ep_car st) Map = Ok (points, flags, dists) /\
     observation lidar Map (ep_car st)
     = Ok (dists ++ [vx (params (ep_car st))]) /\
     length dists = n /\
     length (dists ++ [vx (params (ep_car st))]) = (n + 1)%nat /\
     experiences st' = experiences st ++ [e] /\
     sd_state e = dists /\
     sd_output e = model (dists ++ [vx (params (ep_car st))])) /\
  (sensor_num lidar_ref + 1 = 16)%nat.
Proof.
  intros Hinit Hbody. split; [|reflexivity].
  destruct (episode_body_inv _ _ _ _ _ _ _ Hbody)
    as [points [flags [dists [act [oh [Hml [_ [_ [Hexp _]]]]]]]]].
  destruct (LiDAR_init_shape _ _ _ _ _ Hinit) as [_ [Hlen _]].
  pose proof (make_line_lengths _ _ _ _ _ _ Hml) as Hd.
  exists points, flags, dists, (step_entry max_number_of_steps model Map st dists act oh).
  split; [exact Hml|].
  split; [unfold observation; now rewrite Hml|].
  split; [congruence|].
  split; [rewrite length_app; simpl; congruence|].
  split; [exact Hexp|]. split; reflexivity.
Qed.

Lemma observation_is_distances_and_speed_witness :
  LiDAR_init 180 sensor_num_ref 30 (1 / 10) = Ok lidar_ref /\
  exists st',
    episode_body max_number_of_steps_ref uniform_model always_straight
                 lidar_ref no_walls
                 (episode_start max_number_of_steps_ref car_at_origin) = Ok st' /\
    exists dists,
      observation lidar_ref no_walls car_at_origin
      = Ok (dists ++ [vx (params car_at_origin)]) /\
      length (dists ++ [vx (params car_at_origin)]) = 16%nat.
Proof.
  split; [exact LiDAR_init_ref|].
  destruct (episode_body_no_walls max_number_of_steps_ref uniform_model
              always_straight lidar_ref no_walls
              (episode_start max_number_of_steps_ref car_at_origin))
    as [st' [Hbody _]].
  - reflexivity.
  - intros k p. unfold always_straight, NUM_ACTIONS. simpl. lia.
  - apply rollout_inv_start.
  - simpl. unfold max_number_of_steps_ref. lia.
  - exists st'. split; [exact Hbody|].
    destruct (observation_is_distances_and_speed _ _ _ _ _ _ _ _ _ _ _
                LiDAR_init_ref Hbody)
      as [[points [flags [dists [e [_ [Hobs [_ [Hlen _]]]]]]]] _].
    exists dists. split; [exact Hobs | exact Hlen].
Defined.


(** ** The examples of the rollout *)

Lemma LiDAR_init_blind : LiDAR_init 180 0 30 (1 / 10) = Ok lidar_blind.
Proof.
  unfold LiDAR_init. simpl.
  assert (E : Reqb (1 / 10) 0 = false) by (apply Reqb_false; lra).
  now rewrite E.
Qed.

Lemma always_straight_valid (k : nat) (p : list R) :
  (always_straight k p < NUM_ACTIONS)%nat.
Proof. unfold always_straight, NUM_ACTIONS. simpl. lia. Qed.

Lemma dicide_action_straight :
  dicide_action 12 = Ok (mkAction (0 * deg2rad steer_step) 0 (1 / 10), one_hot_of 12).
Proof. reflexivity. Qed.

Lemma fast_car_first_step :
  pos (params (update fast_car 0 (0 * deg2rad steer_step) (1 / 10)))
  = (0 + 10 * 1 * (1 / 10), 0 + 10 * 0 * (1 / 10)).
Proof.
  unfold fast_car.
  rewrite (update_params _ _ _ _ (Car_init_well_formed _)).
  simpl. now rewrite cos_0, sin_0.
Qed.

Lemma fast_car_hits_wall :
  is_collision wall_ahead
    (pos (params fast_car),
     pos (params (update fast_car 0 (0 * deg2rad steer_step) (1 / 10))))
  = (true, [(1 / 2, 0)]).
Proof.
  rewrite fast_car_first_step.
  unfold is_collision, wall_ahead, MAP_init, fast_car, Car_init, params_update.
  simpl. unfold_geometry. Rdecide.
  repeat f_equal; lra.
Qed.

(** A step succeeds when the sensor returns readings, the draw is in the
    action table and the step budget is not used up. *)
Lemma episode_body_ok (max_number_of_steps : nat) (model : list R -> list R)
  (choice : nat -> list R -> nat) (lidar : LiDAR) (Map : MAP) (st : rollout)
  (points : list point) (flags : list bool) (dists : list R) :
  make_line lidar (ep_car st) Map = Ok (points, flags, dists) ->
  (forall k p, (choice k p < NUM_ACTIONS)%nat) ->
  rollout_inv max_number_of_steps st ->
  (length (experiences st) < max_number_of_steps)%nat ->
  exists st', episode_body max_number_of_steps model choice lidar Map st = Ok st'.
Proof.
  intros Hml Hch [Hstep Hlen Hpi Hrew _ _] Hlt.
  unfold episode_body. rewrite Hml. cbn [bind].
  destruct (dicide_action_ok _ (Hch (length (experiences st))
              (model (dists ++ [vx (params (ep_car st))])))) as [act [oh Hact]].
  rewrite Hact. cbn [bind].
  set (car := update (ep_car st) (act_a act) (act_steer act) (act_dt act)).
  assert (Hsd : exists r, step_dis car = Some r) by (now eexists).
  assert (Hdp : exists d, dpos car = Some d) by (now eexists).
  destruct Hsd as [r Hr]. destruct Hdp as [d Hd]. rewrite Hr, Hd.
  destruct (is_collision Map d) as [flag cp].
  destruct flag; cbn [sd_output sd_one_hot sd_reward];
    rewrite Hstep, Hpi, Hrew;
    rewrite list_set_padded_ok by (rewrite ?length_map; auto); cbn [bind];
    rewrite list_set_padded_ok by (rewrite ?length_map; auto); cbn [bind];
    now eexists.
Qed.


(** ** The padded sequences and the objective *)

Lemma nansum_values (row : list (option R)) : nansum row = total (values row).
Proof.
  induction row as [|[r|] row IH]; simpl; [reflexivity| |exact IH].
  now rewrite IH.
Qed.

Lemma values_padded (vals : list R) (n : nat) : values (padded vals n) = vals.
Proof.
  unfold padded, values. rewrite flat_map_app.
  assert (E : forall k, flat_map (fun e : option R =>
                match e with Some r => [r] | None => [] end) (repeat None k) = []).
  { induction k; simpl; auto. }
  rewrite E, app_nil_r. induction vals as [|h t IH]; simpl; [reflexivity|].
  now rewrite IH.
Qed.

Lemma nansum_padded (vals : list R) (n : nat) : nansum (padded vals n) = total vals.
Proof. now rewrite nansum_values, values_padded. Qed.

Lemma padded_nth (vals : list R) (n i : nat) :
  (length vals <= n)%nat ->
  length (padded vals n) = n /\
  ((i < length vals)%nat ->
   exists r, nth_error vals i = Some r /\ nth_error (padded vals n) i = Some (Some r)) /\
  ((length vals <= i < n)%nat -> nth_error (padded vals n) i = Some None).
Proof.
  intro Hle. unfold padded. split; [|split].
  - rewrite length_app, length_map, repeat_length. lia.
  - intro Hi. destruct (nth_error vals i) as [r|] eqn:E.
    + exists r. split; [reflexivity|].
      rewrite nth_error_app1 by (now rewrite length_map).
      now rewrite nth_error_map, E.
    + apply nth_error_None in E. lia.
  - intros [H1 H2]. rewrite nth_error_app2 by (now rewrite length_map).
    rewrite length_map.
    destruct (nth_error (repeat None (n - length vals)) (i - length vals))
      as [e|] eqn:E.
    + apply nth_error_In, repeat_spec in E. now subst e.
    + apply nth_error_None in E. rewrite repeat_length in E. lia.
Qed.

Lemma map_padded (f : R -> R) (vals : list R) (n : nat) :
  map (option_map f) (padded vals n) = padded (map f vals) n.
Proof.
  unfold padded. rewrite map_app, !map_map, length_map. f_equal.
  induction (n - length vals)%nat; simpl; congruence.
Qed.

Lemma combine_markers (ps rs : list R) (k : nat) :
  length ps = length rs ->
  map (fun e => lift2 Rmult (fst e) (snd e))
      (combine (map Some ps ++ repeat None k) (map Some rs ++ repeat None k))
  = map Some (map (fun pr => fst pr * snd pr) (combine ps rs)) ++ repeat None k.
Proof.
  revert rs. induction ps as [|p ps IH]; intros [|r rs] Hlen;
    simpl in *; try discriminate.
  - induction k; simpl; congruence.
  - f_equal. apply IH. now injection Hlen.
Qed.

Lemma combine_padded (ps rs : list R) (n : nat) :
  length ps = length rs ->
  map (fun e => lift2 Rmult (fst e) (snd e)) (combine (padded ps n) (padded rs n))
  = padded (map (fun pr => fst pr * snd pr) (combine ps rs)) n.
Proof.
  intro Hlen. unfold padded.
  rewrite length_map, length_combine, <- Hlen, Nat.min_id.
  now apply combine_markers.
Qed.

Lemma div_steps_batch (f : list R * list R -> R) (eps : batch) :
  div_steps (map f eps) (batch_steps eps)
  = map (fun e => f e / INR (length (fst e))) eps.
Proof.
  unfold div_steps, batch_steps.
  induction eps as [|e eps IH]; simpl; [reflexivity|]. now rewrite IH.
Qed.

Lemma combine_maps {A B C D : Type} (f : A -> C) (g : B -> D)
  (u : list A) (w : list B) :
  combine (map f u) (map g w) = map (fun p => (f (fst p), g (snd p))) (combine u w).
Proof.
  revert w. induction u as [|h t IH]; intros [|h' t']; simpl; try reflexivity.
  now rewrite IH.
Qed.

Lemma Jmt_batch (n : nat) (eps : batch) :
  Forall (fun e => length (fst e) = length (snd e)) eps ->
  Jmt (batch_rewards n eps) (batch_policies n eps) (batch_steps eps)
  = map (fun e =>
           padded (map (advantage_term
                          (reward_ave (batch_rewards n eps) (batch_steps eps)))
                       (combine (snd e) (fst e))) n) eps.
Proof.
  unfold Jmt, advantage.
  generalize (reward_ave (batch_rewards n eps) (batch_steps eps)) as b.
  intros b Hlen. unfold batch_rewards, batch_policies.
  induction Hlen as [|[rs ps] eps Hl _ IH]; simpl; [reflexivity|].
  simpl in Hl. rewrite IH. f_equal.
  rewrite !map_padded, combine_padded by (now rewrite !length_map).
  f_equal. rewrite combine_maps, map_map. reflexivity.
Qed.

(** C8. In a returned rollout the padded reward sequence and the padded
    sequence of action probabilities have length [max_number_of_steps];
    their entries at the indices below the returned length [step] are the
    recorded values and all later entries are the marker.  On rows padded
    this way the reductions of [update_policy] are the sums of the
    recorded values alone: the per-episode sums of rewards, the baseline,
    the per-episode sums of [Jmt] and the objective. *)
Theorem padding_covers_exactly_the_steps :
  (forall (max_number_of_steps : nat) (model : list R -> list R)
          (choice : nat -> list R -> nat) (lidar : LiDAR) (Map : MAP)
          (fuel : nat) (car : Car) (st : rollout),
      episode max_number_of_steps model choice lidar Map fuel car = Ok st ->
      ep_step st = length (experiences st) /\
      (1 <= ep_step st <= max_number_of_steps)%nat /\
      reward_list st
      = padded (map sd_reward (experiences st)) max_number_of_steps /\
      pi_list st = padded (map pi_of (experiences st)) max_number_of_steps /\
      length (reward_list st) = max_number_of_steps /\
      length (pi_list st) = max_number_of_steps /\
      forall i,
        ((i < ep_step st)%nat ->
         exists e,
           nth_error (experiences st) i = Some e /\
           nth_error (reward_list st) i = Some (Some (sd_reward e)) /\
           nth_error (pi_list st) i = Some (Some (pi_of e))) /\
        ((ep_step st <= i < max_number_of_steps)%nat ->
         nth_error (reward_list st) i = Some None /\
         nth_error (pi_list st) i = Some None)) /\
  (forall (n : nat) (eps : batch),
      Forall (fun e => length (fst e) = length (snd e)) eps ->
      let rewards := batch_rewards n eps in
      let policies := batch_policies n eps in
      let steps := batch_steps eps in
      let b := reward_ave rewards steps in
      map nansum rewards = map (fun e => total (fst e)) eps /\
      b = mean (map (fun e => total (fst e) / INR (length (fst e))) eps) /\
      map nansum (Jmt rewards policies steps)
      = map (fun e => total (map (advantage_term b) (combine (snd e) (fst e)))) eps /\
      objective_J rewards policies steps
      = mean (map (fun e =>
                     total (map (advantage_term b) (combine (snd e) (fst e)))
                     / INR (length (fst e))) eps)).
Proof.
  split.
  - intros max_number_of_steps model choice lidar Map fuel car st Hep.
    destruct (episode_loop_inv _ _ _ _ _ _ _ _
                (rollout_inv_start max_number_of_steps car) Hep)
      as [[Hstep Hlen Hpi Hrew Hrun Hdone] [Hd _]].
    assert (Hpos : (1 <= length (experiences st))%nat).
    { destruct (Hdone Hd) as [pre [e [-> _]]]. rewrite length_app. simpl. lia. }
    assert (Hlr : (length (map sd_reward (experiences st))
                   <= max_number_of_steps)%nat) by (now rewrite length_map).
    assert (Hlp : (length (map pi_of (experiences st))
                   <= max_number_of_steps)%nat) by (now rewrite length_map).
    split; [exact Hstep|]. split; [lia|].
    split; [exact Hrew|]. split; [exact Hpi|].
    split; [rewrite Hrew; now apply (padded_nth _ _ 0%nat)|].
    split; [rewrite Hpi; now apply (padded_nth _ _ 0%nat)|].
    intro i. rewrite Hstep, Hrew, Hpi.
    destruct (padded_nth _ _ i Hlr) as [_ [Hr1 Hr2]].
    destruct (padded_nth _ _ i Hlp) as [_ [Hp1 Hp2]].
    rewrite length_map in Hr1, Hr2, Hp1, Hp2.
    split.
    + intro Hi.
      destruct (Hr1 Hi) as [r [Er Hr]]. destruct (Hp1 Hi) as [q [Eq Hq]].
      rewrite nth_error_map in Er, Eq.
      destruct (nth_error (experiences st) i) as [e|]; [|discriminate].
      simpl in Er, Eq. injection Er as <-. injection Eq as <-.
      exists e. split; [reflexivity|]. split; assumption.
    + intro Hi. split; [now apply Hr2 | now apply Hp2].
  - intros n eps Hlen rewards policies steps b.
    assert (Hsum : map nansum rewards = map (fun e => total (fst e)) eps).
    { subst rewards. unfold batch_rewards. rewrite map_map.
      apply map_ext. intro e. apply nansum_padded. }
    assert (HJ : map nansum (Jmt rewards policies steps)
                 = map (fun e => total (map (advantage_term b)
                                            (combine (snd e) (fst e)))) eps).
    { subst rewards policies steps b. rewrite (Jmt_batch _ _ Hlen), map_map.
      apply map_ext. intro e. apply nansum_padded. }
    split; [exact Hsum|]. split; [|split; [exact HJ|]].
    + subst b. unfold reward_ave. rewrite Hsum. subst steps.
      now rewrite div_steps_batch.
    + unfold objective_J. rewrite HJ. subst steps.
      now rewrite div_steps_batch.
Qed.

Lemma padding_covers_exactly_the_steps_witness :
  exists st,
    episode max_number_of_steps_ref uniform_model always_straight lidar_ref
            no_walls max_number_of_steps_ref car_at_origin = Ok st /\
    reward_list st
    = padded (map sd_reward (experiences st)) max_number_of_steps_ref /\
    Forall (fun e : list R * list R => length (fst e) = length (snd e))
           [([2; 2], [1 / 2; 1 / 4]); ([2], [1 / 3])] /\
    map nansum (batch_rewards 3 [([2; 2], [1 / 2; 1 / 4]); ([2], [1 / 3])])
    = [total [2; 2]; total [2]].
Proof.
  destruct (episode_loop_no_walls max_number_of_steps_ref uniform_model
              always_straight lidar_ref no_walls max_number_of_steps_ref
              eq_refl always_straight_valid _
              (rollout_inv_start max_number_of_steps_ref car_at_origin) eq_refl)
    as [st [Hst _]].
  - unfold max_number_of_steps_ref. simpl. lia.
  - unfold max_number_of_steps_ref. simpl. lia.
  - exists st. split; [exact Hst|].
    split.
    + exact (proj1 (proj2 (proj2
               (proj1 padding_covers_exactly_the_steps _ _ _ _ _ _ _ _ Hst)))).
    + assert (Hl : Forall (fun e : list R * list R => length (fst e) = length (snd e))
                          [([2; 2], [1 / 2; 1 / 4]); ([2], [1 / 3])])
        by (repeat constructor).
      split; [exact Hl|].
      exact (proj1 (proj2 padding_covers_exactly_the_steps 3%nat _ Hl)).
Defined.

(** ** The baseline *)

Lemma reward_ave_is_baseline_spec (rewards : list (list (option R)))
  (steps : list nat) :
  reward_ave rewards steps = baseline_spec rewards steps.
Proof.
  unfold reward_ave, baseline_spec, div_steps. f_equal.
  rewrite <- (map_id steps) at 1. rewrite combine_maps, map_map.
  apply map_ext. intros [row k]. simpl. now rewrite nansum_values.
Qed.

Lemma total_constant (c : R) (l : list R) :
  Forall (fun r => r = c) l -> total l = INR (length l) * c.
Proof.
  induction 1 as [|r l Hr _ IH].
  - simpl. ring.
  - change (total (r :: l)) with (r + total l).
    rewrite IH, Hr. change (length (c :: l)) with (S (length l)).
    rewrite S_INR. ring.
Qed.

Lemma mean_constant (c : R) (l : list R) :
  l <> [] -> Forall (fun r => r = c) l -> mean l = c.
Proof.
  intros Hne Hall. unfold mean. fold (total l).
  rewrite (total_constant _ _ Hall). field.
  apply not_0_INR. destruct l; [congruence | discriminate].
Qed.

Lemma nansum_zero (row : list (option R)) :
  Forall (fun e => forall r, e = Some r -> r = 0) row -> nansum row = 0.
Proof.
  induction 1 as [|e row He _ IH]; simpl; [reflexivity|].
  destruct e as [r|]; [|exact IH]. rewrite IH, (He r eq_refl). ring.
Qed.

Lemma In_values (row : list (option R)) (r : R) :
  In (Some r) row <-> In r (values row).
Proof.
  unfold values. rewrite in_flat_map. split.
  - intro H. exists (Some r). split; [exact H | now left].
  - intros [[r'|] [H1 H2]]; simpl in H2.
    + destruct H2 as [<-|[]]. exact H1.
    + destruct H2.
Qed.

(** With constant rows every term of [Jmt] is 0 or the marker. *)
Lemma Jmt_row_zero (c : R) (prow rrow : list (option R)) :
  Forall (fun r => r = c) (values rrow) ->
  Forall (fun e => forall r, e = Some r -> r = 0)
         (map (fun e => lift2 Rmult (fst e) (snd e))
              (combine (map (option_map (fun p => ln (clamp p))) prow)
                       (map (option_map (fun r => r - c)) rrow))).
Proof.
  intro Hc. rewrite combine_maps, map_map. apply Forall_forall.
  intros e He. apply in_map_iff in He. destruct He as [[p r] [<- Hin]].
  simpl. intros w Hw. apply in_combine_r in Hin.
  destruct p as [p|], r as [r|]; simpl in Hw; try discriminate.
  injection Hw as <-.
  rewrite Forall_forall in Hc. rewrite (Hc r) by (now apply In_values).
  ring.
Qed.

Lemma constant_rows_values (c : R) (rewards : list (list (option R)))
  (steps : list nat) :
  Forall2 (constant_row c) rewards steps ->
  Forall (fun row => Forall (fun r => r = c) (values row)) rewards.
Proof.
  induction 1 as [|row k rewards steps [_ [_ H]] _ IH]; constructor; assumption.
Qed.

Lemma constant_rows_ratio (c : R) (rewards : list (list (option R)))
  (steps : list nat) :
  Forall2 (constant_row c) rewards steps ->
  Forall (fun r => r = c) (div_steps (map nansum rewards) steps) /\
  length (div_steps (map nansum rewards) steps) = length rewards.
Proof.
  unfold div_steps.
  induction 1 as [|row k rewards steps [Hlen [Hk Hc]] _ [IH1 IH2]]; simpl.
  - split; [constructor | reflexivity].
  - split; [|now rewrite IH2]. constructor; [|exact IH1].
    rewrite nansum_values, (total_constant _ _ Hc), Hlen. field.
    apply not_0_INR. lia.
Qed.

Lemma total_zero (l : list R) : Forall (fun r => r = 0) l -> total l = 0.
Proof.
  intro H. rewrite (total_constant 0 l H). ring.
Qed.

Lemma Jmt_rows_zero (c : R) (rewards policies : list (list (option R))) :
  Forall (fun row => Forall (fun r => r = c) (values row)) rewards ->
  Forall (fun row => Forall (fun e => forall r, e = Some r -> r = 0) row)
         (map (fun pr => map (fun e => lift2 Rmult (fst e) (snd e))
                             (combine (map (option_map (fun p => ln (clamp p))) (fst pr))
                                      (snd pr)))
              (combine policies
                       (map (map (option_map (fun r => r - c))) rewards))).
Proof.
  intro Hc. apply Forall_forall. intros row Hrow.
  apply in_map_iff in Hrow. destruct Hrow as [[prow arow] [<- Hin]].
  apply in_combine_r in Hin. apply in_map_iff in Hin.
  destruct Hin as [rrow [<- Hr]]. simpl.
  apply Jmt_row_zero. rewrite Forall_forall in Hc. now apply Hc.
Qed.

Lemma advantage_constant (c : R) (rewards : list (list (option R)))
  (steps : list nat) :
  reward_ave rewards steps = c ->
  Forall (fun row => Forall (fun r => r = c) (values row)) rewards ->
  advantage rewards steps = map (map (option_map (fun _ => 0))) rewards.
Proof.
  intros Hb Hvals. unfold advantage. rewrite Hb.
  apply map_ext_in. intros row Hrow. apply map_ext_in.
  intros [r|] He; [|reflexivity].
  simpl. f_equal.
  rewrite Forall_forall in Hvals. specialize (Hvals _ Hrow).
  rewrite Forall_forall in Hvals.
  rewrite (Hvals r) by (now apply In_values). ring.
Qed.

Lemma Jmt_constant (rewards policies : list (list (option R)))
  (steps : list nat) :
  advantage rewards steps = map (map (option_map (fun _ => 0))) rewards ->
  Jmt rewards policies steps
  = map (fun pr => map (fun e => lift2 (fun _ _ => 0) (fst e) (snd e))
                       (combine (fst pr) (snd pr)))
        (combine policies rewards).
Proof.
  intro Ha. unfold Jmt. rewrite Ha.
  replace (combine policies (map (map (option_map (fun _ : R => 0))) rewards))
    with (combine (map (fun prow : list (option R) => prow) policies)
                  (map (map (option_map (fun _ : R => 0))) rewards))
    by (now rewrite map_id).
  rewrite combine_maps, map_map.
  apply map_ext. intros [prow rrow]. cbn [fst snd].
  rewrite combine_maps, map_map. apply map_ext.
  intros [[p|] [r|]]; simpl; try reflexivity.
  f_equal. ring.
Qed.

(** The same batch in binary32: one episode of three steps of reward
    0.9.  The sum of the three rewards is rounded, and so is its
    quotient by 3: the baseline is the binary32 number just below the
    reward, and the reward minus the baseline is 2^-24 and not 0. *)
Lemma constant_reward_not_cancelled_in_binary32 :
  nine_tenths = S754_finite false 15099494 (-24) /\
  F32.reward_ave constant_rewards_f32 [3%nat]
  = S754_finite false 15099493 (-24) /\
  map (firstn 3) (F32.advantage constant_rewards_f32 [3%nat])
  = [repeat (S754_finite false 8388608 (-47)) 3].
Proof.
  split; [|split]; vm_compute; reflexivity.
Qed.

(** C3. The baseline of [update_policy] is the mean over the episodes of
    the batch of the sum of the non-marker rewards of the episode divided
    by its length.  In exact arithmetic, in a batch whose episodes all
    have the same constant reward at every step, the baseline is that
    constant; the reward minus the baseline has the shape of the rewards,
    with 0 at every non-marker step and the marker elsewhere; every
    entry of [Jmt] is 0 where the policy and the reward are recorded and
    the marker elsewhere; and the objective J is 0. *)
Theorem baseline_cancels_constant_reward :
  (forall (rewards : list (list (option R))) (steps : list nat),
      reward_ave rewards steps = baseline_spec rewards steps) /\
  (forall (c : R) (rewards policies : list (list (option R))) (steps : list nat),
      rewards <> [] ->
      Forall2 (constant_row c) rewards steps ->
      reward_ave rewards steps = c /\
      advantage rewards steps = map (map (option_map (fun _ => 0))) rewards /\
      Jmt rewards policies steps
      = map (fun pr => map (fun e => lift2 (fun _ _ => 0) (fst e) (snd e))
                           (combine (fst pr) (snd pr)))
            (combine policies rewards) /\
      objective_J rewards policies steps = 0).
Proof.
  split; [exact reward_ave_is_baseline_spec|].
  intros c rewards policies steps Hne Hrows.
  assert (Hb : reward_ave rewards steps = c).
  { unfold reward_ave. destruct (constant_rows_ratio _ _ _ Hrows) as [Hall Hlen].
    apply mean_constant; [|exact Hall].
    intro E. rewrite E in Hlen. destruct rewards; [congruence | discriminate]. }
  pose proof (constant_rows_values _ _ _ Hrows) as Hvals.
  pose proof (Jmt_rows_zero c rewards policies Hvals) as HJ.
  pose proof (advantage_constant c rewards steps Hb Hvals) as Ha.
  split; [exact Hb|]. split; [exact Ha|].
  split; [exact (Jmt_constant rewards policies steps Ha)|].
  unfold objective_J, Jmt, advantage. rewrite Hb.
  unfold mean. fold (total (div_steps
    (map nansum
       (map (fun pr => map (fun e => lift2 Rmult (fst e) (snd e))
               (combine (map (option_map (fun p => ln (clamp p))) (fst pr))
                        (snd pr)))
            (combine policies
               (map (map (option_map (fun r => r - c))) rewards)))) steps)).
  rewrite total_zero; [unfold Rdiv; ring|].
  unfold div_steps. apply Forall_forall. intros q Hq.
  apply in_map_iff in Hq. destruct Hq as [[sm k] [<- Hin]].
  apply in_combine_l in Hin. apply in_map_iff in Hin.
  destruct Hin as [row [<- Hrow]]. simpl.
  rewrite Forall_forall in HJ. rewrite (nansum_zero _ (HJ _ Hrow)).
  unfold Rdiv. ring.
Qed.

Lemma baseline_cancels_constant_reward_witness :
  [[Some 2; Some 2; None]; [Some 2; None; None]] <> [] /\
  Forall2 (constant_row 2)
          [[Some 2; Some 2; None]; [Some 2; None; None]] [2%nat; 1%nat] /\
  reward_ave [[Some 2; Some 2; None]; [Some 2; None; None]] [2%nat; 1%nat] = 2 /\
  advantage [[Some 2; Some 2; None]; [Some 2; None; None]] [2%nat; 1%nat]
  = [[Some 0; Some 0; None]; [Some 0; None; None]] /\
  objective_J [[Some 2; Some 2; None]; [Some 2; None; None]]
              [[Some (1 / 2); Some (1 / 4); None]; [Some (1 / 3); None; None]]
              [2%nat; 1%nat] = 0.
Proof.
  assert (H1 : [[Some 2; Some 2; None]; [Some 2; None; None]] <> [])
    by discriminate.
  assert (H2 : Forall2 (constant_row 2)
                 [[Some 2; Some 2; None]; [Some 2; None; None]] [2%nat; 1%nat]).
  { repeat constructor. }
  split; [exact H1|]. split; [exact H2|].
  destruct (proj2 baseline_cancels_constant_reward 2
              [[Some 2; Some 2; None]; [Some 2; None; None]]
              [[Some (1 / 2); Some (1 / 4); None]; [Some (1 / 3); None; None]]
              [2%nat; 1%nat] H1 H2) as [Hb [Ha [_ HJ]]].
  split; [exact Hb|]. split; [exact Ha | exact HJ].
Defined.

(** ** Evaluating the body of [make_line] *)

Lemma make_line_body_miss (l : LiDAR) (m : MAP) (pos_ : point) (st : rays)
  (i : nat) (ang c sn : R) :
  cos ang = c -> sin ang = sn ->
  is_collision m (padd pos_ (pscale (c, sn) (line_len l)), pos_) = (false, []) ->
  make_line_body l m pos_ st i ang
  = Ok (mkRays (line_reaches_wall st)
               (line_end_pos st ++ [padd pos_ (pscale (c, sn) (line_len l))])
               (line_distaces st ++ [line_len l])
               (Some (padd pos_ (pscale (c, sn) (line_len l))))).
Proof.
  intros Hc Hs Hcol. unfold make_line_body. rewrite Hc, Hs, Hcol. reflexivity.
Qed.

Lemma make_line_body_far_hit (l : LiDAR) (m : MAP) (pos_ : point) (st : rays)
  (i : nat) (ang c sn : R) (points : list point) (reaches : list bool) :
  cos ang = c -> sin ang = sn ->
  is_collision m (padd pos_ (pscale (c, sn) (line_len l)), pos_) = (true, points) ->
  list_set (line_reaches_wall st) i true = Ok reaches ->
  (forall p, In p points -> line_len l <= distance pos_ p) ->
  make_line_body l m pos_ st i ang
  = match point_var st with
    | None => Err UnboundLocalError
    | Some p =>
        Ok (mkRays reaches (line_end_pos st ++ [p])
                   (line_distaces st ++ [line_len l]) (Some p))
    end.
Proof.
  intros Hc Hs Hcol Hset Hfar. unfold make_line_body.
  rewrite Hc, Hs, Hcol, Hset. cbn [bind].
  rewrite (nearest_none _ _ _ _ Hfar). cbn [bind].
  destruct (point_var st); reflexivity.
Qed.

Lemma distance_on_x_axis (u : R) : 0 <= u -> distance (0, 0) (u, 0) = u.
Proof.
  intro Hu. unfold distance, psub. simpl.
  replace ((0 - u) * ((0 - u) * 1) + (0 - 0) * ((0 - 0) * 1)) with (u * u) by ring.
  now apply sqrt_square.
Qed.

Lemma LiDAR_init_three : LiDAR_init 180 3 30 (1 / 10) = Ok lidar_three.
Proof.
  unfold LiDAR_init. replace (Z.of_nat 3 - 1 =? 0)%Z with false by reflexivity.
  assert (E : Reqb (1 / 10) 0 = false) by (apply Reqb_false; lra).
  rewrite E. unfold lidar_three. do 2 f_equal.
  unfold deg2rad. simpl.
  f_equal; [field | f_equal; [field | f_equal; field]].
Qed.

Lemma wall_beyond_range_side (sn : R) :
  is_collision wall_beyond_range (padd (0, 0) (pscale (0, sn) 30), (0, 0))
  = (false, []).
Proof.
  unfold is_collision, wall_beyond_range, MAP_init, padd, pscale. simpl.
  unfold is_collision_step, crossing, cal_crosspoint, Reqb.
  Rdecide.
  repeat match goal with
         | |- context [is_online ?u ?w] => destruct (is_online u w)
         end; reflexivity.
Qed.

Lemma wall_beyond_range_ahead :
  is_collision wall_beyond_range (padd (0, 0) (pscale (1, 0) 30), (0, 0))
  = (true, [(30 + 5 / 1000000, 0)]).
Proof.
  unfold is_collision, wall_beyond_range, MAP_init, padd, pscale. simpl.
  unfold_geometry. Rdecide. repeat f_equal; lra.
Qed.

Lemma car_at_origin_pose :
  pos (params car_at_origin) = (0, 0) /\ yaw (params car_at_origin) = 0.
Proof. split; reflexivity. Qed.

(** The three readings in front of that wall: the ray ahead reports a
    hit, the maximum range, and the endpoint left over from the ray before
    it. *)
Lemma make_line_beyond_range :
  make_line lidar_three car_at_origin wall_beyond_range
  = Ok ([padd (0, 0) (pscale (0, -1) 30);
         padd (0, 0) (pscale (0, -1) 30);
         padd (0, 0) (pscale (0, 1) 30)],
        [false; true; false],
        [30; 30; 30]).
Proof.
  unfold make_line.
  destruct car_at_origin_pose as [-> ->].
  cbn [lidar_three sensor_angles_std sensor_num map repeat make_line_loop].
  rewrite (make_line_body_miss lidar_three wall_beyond_range (0, 0) _ 0
             (- (PI / 2) + 0) 0 (-1)).
  2: { rewrite Rplus_0_r, cos_neg. apply cos_PI2. }
  2: { rewrite Rplus_0_r, sin_neg, sin_PI2. reflexivity. }
  2: { apply wall_beyond_range_side. }
  cbn [bind line_reaches_wall line_end_pos line_distaces point_var app].
  rewrite (make_line_body_far_hit lidar_three wall_beyond_range (0, 0) _ 1
             (0 + 0) 1 0 [(30 + 5 / 1000000, 0)] [false; true; false]).
  2: { rewrite Rplus_0_r. apply cos_0. }
  2: { rewrite Rplus_0_r. apply sin_0. }
  2: { apply wall_beyond_range_ahead. }
  2: { reflexivity. }
  2: { intros p [<-|[]]. rewrite distance_on_x_axis by lra.
       cbn [lidar_three line_len]. lra. }
  cbn [bind line_reaches_wall line_end_pos line_distaces point_var app].
  rewrite (make_line_body_miss lidar_three wall_beyond_range (0, 0) _ 2
             (PI / 2 + 0) 0 1).
  2: { rewrite Rplus_0_r. apply cos_PI2. }
  2: { rewrite Rplus_0_r. apply sin_PI2. }
  2: { apply wall_beyond_range_side. }
  reflexivity.
Qed.

Lemma make_line_body_hit (l : LiDAR) (m : MAP) (pos_ : point) (st : rays)
  (i : nat) (ang c sn : R) (points : list point) (reaches : list bool)
  (d : R) (p : point) :
  cos ang = c -> sin ang = sn ->
  is_collision m (padd pos_ (pscale (c, sn) (line_len l)), pos_) = (true, points) ->
  list_set (line_reaches_wall st) i true = Ok reaches ->
  nearest pos_ points (line_len l) (point_var st) = (d, Some p) ->
  make_line_body l m pos_ st i ang
  = Ok (mkRays reaches (line_end_pos st ++ [p]) (line_distaces st ++ [d]) (Some p)).
Proof.
  intros Hc Hs Hcol Hset Hn. unfold make_line_body.
  rewrite Hc, Hs, Hcol, Hset. cbn [bind]. rewrite Hn. reflexivity.
Qed.

Lemma wall_near_side (sn : R) :
  is_collision wall_near (padd (0, 0) (pscale (0, sn) 30), (0, 0)) = (false, []).
Proof.
  unfold is_collision, wall_near, MAP_init, padd, pscale. simpl.
  unfold is_collision_step, crossing, cal_crosspoint, Reqb.
  Rdecide.
  repeat match goal with
         | |- context [is_online ?u ?w] => destruct (is_online u w)
         end; reflexivity.
Qed.

Lemma wall_near_ahead :
  is_collision wall_near (padd (0, 0) (pscale (1, 0) 30), (0, 0))
  = (true, [(5, 0)]).
Proof.
  unfold is_collision, wall_near, MAP_init, padd, pscale. simpl.
  unfold_geometry. Rdecide. repeat f_equal; lra.
Qed.

Lemma make_line_wall_near :
  make_line lidar_three car_at_origin wall_near
  = Ok ([padd (0, 0) (pscale (0, -1) 30); (5, 0); padd (0, 0) (pscale (0, 1) 30)],
        [false; true; false],
        [30; 5; 30]).
Proof.
  unfold make_line.
  destruct car_at_origin_pose as [-> ->].
  cbn [lidar_three sensor_angles_std sensor_num map repeat make_line_loop].
  rewrite (make_line_body_miss lidar_three wall_near (0, 0) _ 0
             (- (PI / 2) + 0) 0 (-1)).
  2: { rewrite Rplus_0_r, cos_neg. apply cos_PI2. }
  2: { rewrite Rplus_0_r, sin_neg, sin_PI2. reflexivity. }
  2: { apply wall_near_side. }
  cbn [bind line_reaches_wall line_end_pos line_distaces point_var app].
  rewrite (make_line_body_hit lidar_three wall_near (0, 0) _ 1
             (0 + 0) 1 0 [(5, 0)] [false; true; false] 5 (5, 0)).
  2: { rewrite Rplus_0_r. apply cos_0. }
  2: { rewrite Rplus_0_r. apply sin_0. }
  2: { apply wall_near_ahead. }
  2: { reflexivity. }
  2: { unfold nearest. cbn [fold_left nearest_step point_var line_len lidar_three].
       rewrite distance_on_x_axis by lra.
       assert (E : Rltb 5 30 = true) by (apply Rltb_true; lra).
       now rewrite E. }
  cbn [bind line_reaches_wall line_end_pos line_distaces point_var app].
  rewrite (make_line_body_miss lidar_three wall_near (0, 0) _ 2
             (PI / 2 + 0) 0 1).
  2: { rewrite Rplus_0_r. apply cos_PI2. }
  2: { rewrite Rplus_0_r. apply sin_PI2. }
  2: { apply wall_near_side. }
  reflexivity.
Qed.

(** C4, as stated, fails: the wall just beyond the maximum range is hit
    by the ray ahead, whose reading is neither the distance of the
    crossing point nor a crossing point. *)
Lemma make_line_reading_not_as_claimed :
  exists ends flags dists e d,
    make_line lidar_three car_at_origin wall_beyond_range
    = Ok (ends, flags, dists) /\
    nth_error (sensor_angles_std lidar_three) 1 = Some 0 /\
    nth_error ends 1 = Some e /\
    nth_error dists 1 = Some d /\
    ~ reading_as_claimed lidar_three wall_beyond_range
        (pos (params car_at_origin)) (0 + yaw (params car_at_origin))
        e (nth 1 flags false) d.
Proof.
  exists [padd (0, 0) (pscale (0, -1) 30);
          padd (0, 0) (pscale (0, -1) 30);
          padd (0, 0) (pscale (0, 1) 30)],
         [false; true; false], [30; 30; 30],
         (padd (0, 0) (pscale (0, -1) 30)), 30.
  split; [exact make_line_beyond_range|].
  split; [reflexivity|]. split; [reflexivity|]. split; [reflexivity|].
  unfold reading_as_claimed, probe.
  destruct car_at_origin_pose as [-> ->].
  rewrite Rplus_0_r, cos_0, sin_0.
  change (line_len lidar_three) with 30.
  match goal with
  | |- context [is_collision ?m ?ln] =>
      replace (is_collision m ln) with (true, [(30 + 5 / 1000000, 0)])
        by (symmetry; apply wall_beyond_range_ahead)
  end.
  intros [_ H]. destruct (H eq_refl) as [[Hin|[]] _].
  unfold padd, pscale in Hin. simpl in Hin.
  injection Hin as Hx Hy. lra.
Qed.

(** C4, amended. For every ray of a returned [make_line]: without a
    crossing of the probe the reading is the far endpoint of the probe,
    no hit, and the maximum range; with a crossing the hit flag is set
    and the distance is the least of the maximum range and the distances
    of the crossing points to the vehicle; and when some crossing point is
    nearer than the maximum range, the endpoint is a crossing point at
    that least distance. *)
Theorem make_line_readings (l : LiDAR) (c : Car) (m : MAP)
  (ends : list point) (flags : list bool) (dists : list R) :
  make_line l c m = Ok (ends, flags, dists) ->
  length ends = length (sensor_angles_std l) /\
  length dists = length (sensor_angles_std l) /\
  length flags = sensor_num l /\
  forall j ang,
    nth_error (sensor_angles_std l) j = Some ang ->
    exists e d,
      nth_error ends j = Some e /\ nth_error dists j = Some d /\
      reading_ok l m (pos (params c)) (ang + yaw (params c)) e
                 (nth j flags false) d.
Proof.
  unfold make_line.
  destruct (make_line_loop _ _ _ _ _ _) as [st|err] eqn:Hloop; simpl; [|discriminate].
  intro H. injection H as <- <- <-.
  destruct (make_line_loop_spec _ _ _ _ _ _ _ Hloop)
    as [ends [dists [He [Hd [Hle [Hld [Hlen [_ Hread]]]]]]]].
  { intros j _. simpl. rewrite nth_nth_error.
    destruct (nth_error _ j) as [b|] eqn:E; [|reflexivity].
    apply nth_error_In, repeat_spec in E. exact E. }
  simpl in He, Hd, Hlen. rewrite length_map in Hle, Hld.
  rewrite He, Hd, Hlen, repeat_length.
  repeat split; try assumption.
  intros j ang Hj.
  apply (Hread j (ang + yaw (params c))).
  now rewrite nth_error_map, Hj.
Qed.

Lemma make_line_readings_witness :
  make_line lidar_three car_at_origin wall_near
  = Ok ([padd (0, 0) (pscale (0, -1) 30); (5, 0); padd (0, 0) (pscale (0, 1) 30)],
        [false; true; false], [30; 5; 30]) /\
  exists e d,
    nth_error [padd (0, 0) (pscale (0, -1) 30); (5, 0);
               padd (0, 0) (pscale (0, 1) 30)] 1 = Some e /\
    nth_error [30; 5; 30] 1 = Some d /\
    reading_ok lidar_three wall_near (pos (params car_at_origin))
               (0 + yaw (params car_at_origin)) e true d.
Proof.
  split; [exact make_line_wall_near|].
  exact (proj2 (proj2 (proj2 (make_line_readings _ _ _ _ _ _ make_line_wall_near)))
           1%nat 0 eq_refl).
Defined.

(** ** A hit at exactly the maximum range *)

Lemma wall_at_range_ahead :
  is_collision wall_at_range (padd (0, 0) (pscale (1, 0) 30), (0, 0))
  = (true, [(30, 0)]).
Proof.
  unfold is_collision, wall_at_range, MAP_init, padd, pscale. simpl.
  unfold_geometry. Rdecide. repeat f_equal; lra.
Qed.

Lemma lidar_ref_first_angle :
  exists rest,
    map (fun t => t + PI / 2) (sensor_angles_std lidar_ref)
    = (deg2rad (- 180 / 2 + 180 / 14 * INR 0) + PI / 2) :: rest.
Proof. eexists. reflexivity. Qed.

Lemma first_angle_is_zero : deg2rad (- 180 / 2 + 180 / 14 * INR 0) + PI / 2 = 0.
Proof. unfold deg2rad. simpl. field. Qed.

(** C10. [make_line] is not total.  With the reference sensor, the
    vehicle heading along the y axis and a wall across its first ray at
    exactly the maximum range, the probe of the first ray is reported as
    hit, its only crossing point is at distance [line_len], not nearer,
    the local [point] is read before any assignment, and the call, and
    with it the rollout, ends in [UnboundLocalError]. *)
Theorem make_line_unbound_at_max_range :
  make_line lidar_ref car_facing_wall wall_at_range = Err UnboundLocalError /\
  (exists ang rest,
      sensor_angles_std lidar_ref = ang :: rest /\
      is_collision wall_at_range
        (probe lidar_ref (pos (params car_facing_wall))
               (ang + yaw (params car_facing_wall)))
      = (true, [(30, 0)]) /\
      distance (pos (params car_facing_wall)) (30, 0) = line_len lidar_ref) /\
  (forall (max_number_of_steps : nat) (model : list R -> list R)
          (choice : nat -> list R -> nat) (fuel : nat),
      episode max_number_of_steps model choice lidar_ref wall_at_range
              (S fuel) car_facing_wall
      = Err UnboundLocalError).
Proof.
  assert (Hml : make_line lidar_ref car_facing_wall wall_at_range
                = Err UnboundLocalError).
  { unfold make_line.
    change (yaw (params car_facing_wall)) with (PI / 2).
    change (pos (params car_facing_wall)) with ((0, 0) : point).
    destruct lidar_ref_first_angle as [rest ->].
    cbn [make_line_loop].
    rewrite (make_line_body_far_hit lidar_ref wall_at_range (0, 0) _ 0
               _ 1 0 [(30, 0)] (true :: repeat false 14)).
    - reflexivity.
    - rewrite first_angle_is_zero. apply cos_0.
    - rewrite first_angle_is_zero. apply sin_0.
    - apply wall_at_range_ahead.
    - reflexivity.
    - intros p [<-|[]]. rewrite distance_on_x_axis by lra.
      change (line_len lidar_ref) with 30. lra. }
  split; [exact Hml|]. split.
  - eexists. eexists. split; [reflexivity|].
    unfold probe.
    change (yaw (params car_facing_wall)) with (PI / 2).
    change (pos (params car_facing_wall)) with ((0, 0) : point).
    change (line_len lidar_ref) with 30.
    split.
    + match goal with
      | |- context [cos ?t] =>
          replace t with 0
            by (symmetry; apply first_angle_is_zero)
      end.
      rewrite cos_0, sin_0. apply wall_at_range_ahead.
    + apply distance_on_x_axis. lra.
  - intros max_number_of_steps model choice fuel.
    unfold episode, episode_start. cbn [episode_loop ep_done].
    unfold episode_body. cbn [ep_car]. rewrite Hml. reflexivity.
Qed.

(** * Further properties of the program *)

(** ** Distances *)

Lemma distance_sqr (p q : point) :
  0 <= fst (psub p q) ^ 2 + snd (psub p q) ^ 2.
Proof.
  pose proof (pow2_ge_0 (fst (psub p q))).
  pose proof (pow2_ge_0 (snd (psub p q))). lra.
Qed.

(** X1. [distance] is symmetric and never negative, and it is 0 exactly
    between a point and itself. *)
Theorem distance_is_a_metric :
  (forall p q : point, distance p q = distance q p) /\
  (forall p q : point, 0 <= distance p q) /\
  (forall p : point, distance p p = 0) /\
  (forall p q : point, distance p q = 0 -> p = q).
Proof.
  split; [|split; [|split]].
  - intros [px py] [qx qy]. unfold distance, psub. simpl. f_equal. ring.
  - intros p q. unfold distance. apply sqrt_pos.
  - intros [px py]. unfold distance, psub. simpl.
    replace ((px - px) * ((px - px) * 1) + (py - py) * ((py - py) * 1)) with 0 by ring.
    apply sqrt_0.
  - intros [px py] [qx qy] H. unfold distance in H.
    apply sqrt_eq_0 in H; [|apply distance_sqr].
    unfold psub in H. simpl in H.
    pose proof (Rle_0_sqr (px - qx)) as Hx.
    pose proof (Rle_0_sqr (py - qy)) as Hy. unfold Rsqr in Hx, Hy.
    assert (Hx0 : (px - qx) * (px - qx) = 0) by lra.
    assert (Hy0 : (py - qy) * (py - qy) = 0) by lra.
    apply Rmult_integral in Hx0. apply Rmult_integral in Hy0.
    f_equal; lra.
Qed.

(** ** Distance bookkeeping of the vehicle *)

Lemma update_total_dis (c : Car) (a_ steer dt_ : R) (r : R) :
  step_dis (update c a_ steer dt_) = Some r ->
  total_dis (update c a_ steer dt_) = total_dis c + r.
Proof.
  unfold update, model_. cbn [step_dis total_dis params nparams].
  intro H. injection H as <-. reflexivity.
Qed.

(** X2. [total_dis] never decreases: one [update] adds to it the
    [step_dis] of the step, which is the distance between the positions
    before and after the step and so at least 0.  With [dt = 0] the
    vehicle stays where it is: position, speed, yaw and time keep their
    values, [step_dis] is 0 and [total_dis] is unchanged. *)
Theorem update_never_decreases_total_dis (c : Car) (a_ steer dt_ : R) :
  well_formed c ->
  let c' := update c a_ steer dt_ in
  step_dis c' = Some (distance (pos (params c)) (pos (params c'))) /\
  total_dis c' = total_dis c + distance (pos (params c)) (pos (params c')) /\
  total_dis c <= total_dis c' /\
  (dt_ = 0 ->
   pos (params c') = pos (params c) /\
   vx (params c') = vx (params c) /\
   yaw (params c') = yaw (params c) /\
   time (params c') = time (params c) /\
   step_dis c' = Some 0 /\
   total_dis c' = total_dis c).
Proof.
  intros Hwf c'. subst c'.
  pose proof (update_step_dis _ a_ steer dt_ Hwf) as Hs.
  pose proof (update_total_dis _ _ _ _ _ Hs) as Ht.
  assert (Hd : 0 <= distance (pos (params c))
                             (pos (params (update c a_ steer dt_))))
    by (unfold distance; apply sqrt_pos).
  split; [exact Hs|]. split; [exact Ht|]. split; [lra|].
  intros ->.
  assert (Hp : pos (params (update c a_ steer 0)) = pos (params c)).
  { rewrite (update_params _ _ _ _ Hwf), (wf_pos _ Hwf). simpl.
    f_equal; ring. }
  assert (H0 : distance (pos (params c)) (pos (params (update c a_ steer 0)))
               = 0).
  { rewrite Hp. unfold distance, psub. simpl.
    replace (_ + _) with 0 by ring. apply sqrt_0. }
  split; [exact Hp|].
  split; [rewrite (update_params _ _ _ _ Hwf); simpl; ring|].
  split; [rewrite (update_params _ _ _ _ Hwf); simpl; ring|].
  split; [rewrite (update_params _ _ _ _ Hwf); simpl; ring|].
  split; [now rewrite Hs, H0|].
  rewrite Ht, H0. ring.
Qed.

Lemma update_never_decreases_total_dis_witness :
  well_formed fast_car /\
  total_dis fast_car <= total_dis (update fast_car 0 0 (1 / 10)) /\
  pos (params (update fast_car 0 0 0)) = pos (params fast_car).
Proof.
  assert (Hwf : well_formed fast_car) by apply Car_init_well_formed.
  split; [exact Hwf|]. split.
  - exact (proj1 (proj2 (proj2
             (update_never_decreases_total_dis fast_car 0 0 (1 / 10) Hwf)))).
  - exact (proj1 (proj2 (proj2 (proj2
             (update_never_decreases_total_dis fast_car 0 0 0 Hwf))) eq_refl)).
Defined.

(** ** Sequences of updates *)

Lemma drive_snoc (c : Car) (controls : list control) (u : control) :
  drive c (controls ++ [u])
  = update (drive c controls) (fst (fst u)) (snd (fst u)) (snd u).
Proof. unfold drive. now rewrite fold_left_app. Qed.

Lemma drive_well_formed (c : Car) (controls : list control) :
  well_formed c -> well_formed (drive c controls).
Proof.
  intro Hwf. induction controls as [|u controls IH] using rev_ind.
  - exact Hwf.
  - rewrite drive_snoc. now apply update_well_formed.
Qed.

Lemma update_histories (c : Car) (a_ steer dt_ : R) :
  histories (update c a_ steer dt_)
  = params_history_update (histories c) (params (update c a_ steer dt_)).
Proof. reflexivity. Qed.

Lemma path_length_snoc (h : list point) (q d : point) :
  h <> [] ->
  path_length (h ++ [q]) = path_length h + distance (last h d) q.
Proof.
  induction h as [|p h IH]; intro Hne; [congruence|].
  destruct h as [|p' h].
  - simpl. ring.
  - change (path_length ((p :: p' :: h) ++ [q]))
      with (distance p p' + path_length ((p' :: h) ++ [q])).
    rewrite IH by discriminate.
    change (path_length (p :: p' :: h))
      with (distance p p' + path_length (p' :: h)).
    change (last (p :: p' :: h) d) with (last (p' :: h) d). ring.
Qed.

(** X3. The histories of a vehicle are append-only logs of its updates.
    After [n] updates of a new vehicle the history of positions and the
    histories of the scalar keys have [n + 1] entries, those of ["a"] and
    ["s"] have [n]; the last position logged is the current position;
    the histories of ["a"], ["s"] and ["dt"] are the controls applied, in
    order (after the initial 0 for ["dt"]); and [total_dis] is the
    length of the polyline through the logged positions. *)
Theorem histories_log_every_update (kwargs : dict) (controls : list control) :
  let c := drive (Car_init kwargs) controls in
  let n := length controls in
  length (h_pos (histories c)) = S n /\
  (forall k, length (h_scalar (histories c) k)
             = match k with Pa | Ps => n | _ => S n end) /\
  last (h_pos (histories c)) (0, 0) = pos (params c) /\
  h_scalar (histories c) Pa = map (fun u => fst (fst u)) controls /\
  h_scalar (histories c) Ps = map (fun u => snd (fst u)) controls /\
  h_scalar (histories c) Pdt = 0 :: map (fun u => snd u) controls /\
  total_dis c = path_length (h_pos (histories c)).
Proof.
  induction controls as [|u controls IH] using rev_ind.
  - cbn zeta. simpl. repeat split; try reflexivity. intro k. now destruct k.
  - cbv zeta in IH |- *.
    destruct IH as [Hlen [Hsc [Hlast [Ha [Hs [Hdt Htot]]]]]].
    rewrite drive_snoc, length_app, !map_app. simpl length.
    set (c := drive (Car_init kwargs) controls) in *.
    assert (Hwf : well_formed c)
      by (apply drive_well_formed, Car_init_well_formed).
    rewrite update_histories. unfold params_history_update.
    cbn [h_pos h_scalar].
    assert (Hne : h_pos (histories c) <> []).
    { intro E. rewrite E in Hlen. discriminate. }
    split; [rewrite length_app, Hlen; simpl; lia|].
    split.
    { intro k. rewrite length_app, Hsc. destruct k; simpl; lia. }
    split; [apply last_last|].
    rewrite (update_params _ _ _ _ Hwf). cbn [get_param updated_params a s dt].
    split; [now rewrite Ha|]. split; [now rewrite Hs|].
    split; [now rewrite Hdt|].
    rewrite (path_length_snoc _ _ (0, 0) Hne), Hlast, <- Htot.
    apply update_total_dis.
    rewrite (update_step_dis _ _ _ _ Hwf), (update_params _ _ _ _ Hwf).
    reflexivity.
Qed.

Lemma Car_init_speed (kwargs : dict) :
  v (params (Car_init kwargs))
  = sqrt (vx (params (Car_init kwargs)) ^ 2 + vy (params (Car_init kwargs)) ^ 2).
Proof. reflexivity. Qed.

(** X4. No update writes [vy], and the speed [v] is always derived from
    the velocity: after any sequence of updates of a new vehicle [vy] is
    the initial value and [v = sqrt(vx^2 + vy^2)]; with [vy = 0] the
    speed is [|vx|]. *)
Theorem speed_is_derived_from_velocity (kwargs : dict) (controls : list control) :
  let c0 := Car_init kwargs in
  let c := drive c0 controls in
  vy (params c) = vy (params c0) /\
  v (params c) = sqrt (vx (params c) ^ 2 + vy (params c) ^ 2) /\
  0 <= v (params c) /\
  (vy (params c0) = 0 -> v (params c) = Rabs (vx (params c))).
Proof.
  cbv zeta.
  assert (H : vy (params (drive (Car_init kwargs) controls))
              = vy (params (Car_init kwargs)) /\
              v (params (drive (Car_init kwargs) controls))
              = sqrt (vx (params (drive (Car_init kwargs) controls)) ^ 2
                      + vy (params (drive (Car_init kwargs) controls)) ^ 2)).
  { induction controls as [|u controls [IH1 IH2]] using rev_ind.
    - split; [reflexivity | apply Car_init_speed].
    - rewrite drive_snoc.
      rewrite (update_params _ _ _ _
                 (drive_well_formed _ controls (Car_init_well_formed kwargs))).
      simpl. split; [exact IH1 | reflexivity]. }
  destruct H as [H1 H2].
  split; [exact H1|]. split; [exact H2|].
  split; [rewrite H2; apply sqrt_pos|].
  intro H0. rewrite H2, H1, H0.
  replace (vx (params (drive (Car_init kwargs) controls)) ^ 2 + 0 ^ 2)
    with ((vx (params (drive (Car_init kwargs) controls)))²)
    by (unfold Rsqr; ring).
  apply sqrt_Rsqr_abs.
Qed.

(** ** The obstacle map *)

Lemma wall_line_cons (p q : point) (vs : list point) :
  wall_line (p :: q :: vs) = (p, q) :: wall_line (q :: vs).
Proof. reflexivity. Qed.

Lemma wall_line_length (vs : list point) :
  length (wall_line vs) = (length vs - 1)%nat.
Proof.
  induction vs as [|p vs IH]; [reflexivity|].
  destruct vs as [|q vs]; [reflexivity|].
  rewrite wall_line_cons. simpl length. rewrite IH. simpl. lia.
Qed.

Lemma wall_line_nth (vs : list point) :
  forall (i : nat) (p q : point),
    nth_error vs i = Some p -> nth_error vs (S i) = Some q ->
    nth_error (wall_line vs) i = Some (p, q).
Proof.
  induction vs as [|p0 vs IH]; intros i p q Hp Hq.
  - destruct i; discriminate.
  - destruct vs as [|q0 vs]; [destruct i; discriminate|].
    rewrite wall_line_cons. destruct i as [|i].
    + simpl in Hp, Hq. now injection Hp as <-; injection Hq as <-.
    + simpl. apply IH; assumption.
Qed.

Lemma MAP_init_fold (walls : list (list point)) (acc : list line) :
  fold_left (fun wall_lines wall_vertices => wall_lines ++ wall_line wall_vertices)
            walls acc
  = acc ++ concat (map wall_line walls).
Proof.
  revert acc. induction walls as [|vs walls IH]; intro acc; simpl.
  - now rewrite app_nil_r.
  - now rewrite IH, app_assoc.
Qed.

Lemma MAP_init_lines (walls : list (list point)) :
  lines (MAP_init walls) = concat (map wall_line walls).
Proof. unfold MAP_init. simpl. now rewrite MAP_init_fold. Qed.

Lemma MAP_init_app (walls1 walls2 : list (list point)) :
  lines (MAP_init (walls1 ++ walls2))
  = lines (MAP_init walls1) ++ lines (MAP_init walls2).
Proof. now rewrite !MAP_init_lines, map_app, concat_app. Qed.

(** X5. [MAP] turns every polyline into the segments between its
    consecutive vertices, in order: a polyline of [N] vertices gives
    [N - 1] segments, none for an empty or one-vertex polyline, and no
    closing segment; the segments of all polylines are pooled in the
    order of the polylines. *)
Theorem MAP_pools_consecutive_segments :
  (forall vs : list point, length (wall_line vs) = (length vs - 1)%nat) /\
  (forall (vs : list point) (i : nat) (p q : point),
      nth_error vs i = Some p -> nth_error vs (S i) = Some q ->
      nth_error (wall_line vs) i = Some (p, q)) /\
  (forall walls : list (list point),
      lines (MAP_init walls) = concat (map wall_line walls)) /\
  (forall walls1 walls2 : list (list point),
      lines (MAP_init (walls1 ++ walls2))
      = lines (MAP_init walls1) ++ lines (MAP_init walls2)) /\
  (forall walls : list (list point),
      length (lines (MAP_init walls))
      = list_sum (map (fun vs => (length vs - 1)%nat) walls)).
Proof.
  split; [exact wall_line_length|]. split; [exact wall_line_nth|].
  split; [exact MAP_init_lines|]. split; [exact MAP_init_app|].
  - intro walls. rewrite MAP_init_lines. induction walls as [|vs walls IH]; [reflexivity|].
    simpl. now rewrite length_app, wall_line_length, IH.
Qed.

Lemma is_collision_fold (l : line) (ls : list line) (flag : bool)
  (points : list point) :
  fold_left (is_collision_step l) ls (flag, points)
  = (flag || existsb (fun road_line => fst (crossing road_line l)) ls,
     points ++ map (fun road_line => snd (crossing road_line l))
                   (filter (fun road_line => fst (crossing road_line l)) ls)).
Proof.
  revert flag points. induction ls as [|rl ls IH]; intros flag points; simpl.
  - now rewrite orb_false_r, app_nil_r.
  - destruct (crossing rl l) as [f cp] eqn:E. simpl.
    destruct f; rewrite IH; simpl.
    + rewrite E, <- app_assoc, orb_true_r. reflexivity.
    + reflexivity.
Qed.

(** X6. [MAP.is_collision] returns the crossing points of exactly the
    walls that [crossing] reports as crossed, in the order of the walls;
    its flag is set exactly when there is such a point, and a map made
    of two lists of polylines gives the flags of the two maps joined by
    "or" and their points one after the other. *)
Theorem is_collision_collects_crossings :
  (forall (m : MAP) (l : line),
      is_collision m l
      = (existsb (fun road_line => fst (crossing road_line l)) (lines m),
         map (fun road_line => snd (crossing road_line l))
             (filter (fun road_line => fst (crossing road_line l)) (lines m)))) /\
  (forall (m : MAP) (l : line),
      (fst (is_collision m l) = true <-> snd (is_collision m l) <> []) /\
      (length (snd (is_collision m l)) <= length (lines m))%nat) /\
  (forall (walls1 walls2 : list (list point)) (l : line),
      is_collision (MAP_init (walls1 ++ walls2)) l
      = (fst (is_collision (MAP_init walls1) l)
         || fst (is_collision (MAP_init walls2) l),
         snd (is_collision (MAP_init walls1) l)
         ++ snd (is_collision (MAP_init walls2) l))).
Proof.
  assert (H : forall (m : MAP) (l : line),
             is_collision m l
             = (existsb (fun road_line => fst (crossing road_line l)) (lines m),
                map (fun road_line => snd (crossing road_line l))
                    (filter (fun road_line => fst (crossing road_line l)) (lines m)))).
  { intros m l. unfold is_collision. now rewrite is_collision_fold. }
  split; [exact H|]. split.
  - intros m l. rewrite H. simpl. split.
    + induction (lines m) as [|rl ls IH]; simpl.
      * split; [discriminate | congruence].
      * destruct (fst (crossing rl l)); simpl; [|exact IH].
        split; [discriminate | reflexivity].
    + rewrite length_map. apply filter_length_le.
  - intros walls1 walls2 l. rewrite !H. cbn [fst snd].
    now rewrite MAP_init_app, existsb_app, filter_app, map_app.
Qed.

(** ** The on-segment test *)

Lemma sign_opp (r : R) : sign (- r) = - sign r.
Proof.
  unfold sign.
  destruct (Rlt_dec 0 (- r)), (Rlt_dec (- r) 0), (Rlt_dec 0 r), (Rlt_dec r 0);
    lra.
Qed.

Lemma sign_scale (k r : R) : 0 < k -> sign (k * r) = sign r.
Proof.
  intro Hk. unfold sign.
  destruct (Rlt_dec 0 r) as [Hr|Hr].
  - destruct (Rlt_dec 0 (k * r)) as [|H]; [reflexivity|]. elim H. nra.
  - destruct (Rlt_dec 0 (k * r)) as [H|_]; [nra|].
    destruct (Rlt_dec r 0) as [Hr'|Hr'].
    + destruct (Rlt_dec (k * r) 0) as [|H]; [reflexivity|]. elim H. nra.
    + destruct (Rlt_dec (k * r) 0) as [H|_]; [nra | reflexivity].
Qed.

Lemma sign_cases (r : R) :
  (0 < r /\ sign r = 1) \/ (r < 0 /\ sign r = -1) \/ (r = 0 /\ sign r = 0).
Proof.
  unfold sign. destruct (Rlt_dec 0 r); [left; split; [assumption|reflexivity]|].
  destruct (Rlt_dec r 0); [right; left; split; [assumption|reflexivity]|].
  right; right. split; [lra | reflexivity].
Qed.

Lemma Reqb_opp (u w : R) : Reqb (- u) (- w) = Reqb w u.
Proof.
  unfold Reqb. destruct (Req_dec_T (- u) (- w)), (Req_dec_T w u);
    try reflexivity; exfalso; lra.
Qed.

Lemma Rleb_tol_refl : Rleb (Rabs 0) tol = true.
Proof. rewrite Rabs_R0. apply Rleb_true. unfold tol. lra. Qed.

Lemma close_to_refl (p : point) : close_to p p = true.
Proof.
  unfold close_to, psub. simpl.
  replace (fst p - fst p) with 0 by ring.
  replace (snd p - snd p) with 0 by ring.
  now rewrite Rleb_tol_refl.
Qed.

Lemma close_to_box (q p : point) :
  close_to q p = true ->
  fst q - tol <= fst p <= fst q + tol /\ snd q - tol <= snd p <= snd q + tol.
Proof.
  unfold close_to, psub. simpl. intro H. apply andb_prop in H.
  destruct H as [Hx Hy]. apply Rleb_true in Hx, Hy.
  unfold Rabs in Hx, Hy.
  destruct (Rcase_abs (fst q - fst p)), (Rcase_abs (snd q - snd p)); lra.
Qed.



(** ** The intersection of two lines *)

Lemma cal_crosspoint_sym (line1 line2 : line) :
  cal_crosspoint line1 line2 = cal_crosspoint line2 line1.
Proof.
  destruct line1 as [[x1 y1] [x2 y2]], line2 as [[x3 y3] [x4 y4]].
  unfold cal_crosspoint.
  destruct (Reqb x1 x2) eqn:E12; destruct (Reqb x3 x4) eqn:E34; cbn [andb];
    try reflexivity.
  apply Reqb_false in E12, E34.
  destruct (Reqb ((y2 - y1) / (x2 - x1)) ((y4 - y3) / (x4 - x3))) eqn:Ea.
  - apply Reqb_true in Ea. symmetry in Ea. apply Reqb_true in Ea.
    now rewrite Ea.
  - apply Reqb_false in Ea.
    assert (Ea' : Reqb ((y4 - y3) / (x4 - x3)) ((y2 - y1) / (x2 - x1)) = false)
      by (apply Reqb_false; congruence).
    rewrite Ea'.
    assert (Hd : (y2 - y1) * (x4 - x3) - (y4 - y3) * (x2 - x1) <> 0).
    { intro H0. apply Ea. field_simplify_eq; [|lra]. lra. }
    assert (Hd' : (y4 - y3) * (x2 - x1) - (y2 - y1) * (x4 - x3) <> 0) by lra.
    do 2 f_equal; field; repeat split; lra.
Qed.

(** X9. In exact arithmetic [crossing] does not depend on the order of
    its two segments: the flag and the point are the same. *)
Theorem crossing_is_symmetric (line1 line2 : line) :
  crossing line1 line2 = crossing line2 line1.
Proof.
  rewrite !crossing_unfold, (cal_crosspoint_sym line2 line1).
  f_equal.
  destruct (fst (cal_crosspoint line1 line2)),
    (is_online line1 (snd (cal_crosspoint line1 line2))),
    (is_online line2 (snd (cal_crosspoint line1 line2))); reflexivity.
Qed.

(** ** The fan of the sensor *)

Lemma LiDAR_init_ok (sensor_angle_max : R) (n : nat) (len delta : R) :
  n <> 1%nat -> delta <> 0 ->
  LiDAR_init sensor_angle_max n len delta
  = Ok (mkLiDAR n
          (map deg2rad
             (map (fun i => - sensor_angle_max / 2
                            + sensor_angle_max / IZR (Z.of_nat n - 1) * INR i)
                  (seq 0 n)))
          len (int_trunc ((len + delta) / delta)) delta).
Proof.
  intros Hn Hd. unfold LiDAR_init.
  destruct (Z.eqb_spec (Z.of_nat n - 1) 0) as [E|_]; [lia|].
  apply Reqb_false in Hd. now rewrite Hd.
Qed.

Lemma LiDAR_init_angle (sensor_angle_max : R) (n i : nat) (len delta : R)
  (l : LiDAR) :
  LiDAR_init sensor_angle_max n len delta = Ok l ->
  (i < n)%nat ->
  nth i (sensor_angles_std l) 0
  = deg2rad (- sensor_angle_max / 2 + sensor_angle_max / (INR n - 1) * INR i).
Proof.
  unfold LiDAR_init. destruct (_ =? _)%Z; [discriminate|].
  destruct (Reqb delta 0); [discriminate|].
  intro H. injection H as <-. intro Hi. cbn [sensor_angles_std].
  rewrite map_map, nth_nth_error, nth_error_map, nth_error_seq.
  apply Nat.ltb_lt in Hi. rewrite Hi. simpl.
  now rewrite minus_IZR, <- INR_IZR_INZ.
Qed.



(** ** Ranges reported by the sensor *)

Lemma make_line_rays (l : LiDAR) (c : Car) (m : MAP)
  (ends : list point) (flags : list bool) (dists : list R) :
  make_line l c m = Ok (ends, flags, dists) ->
  length ends = length (sensor_angles_std l) /\
  length dists = length (sensor_angles_std l) /\
  length flags = sensor_num l /\
  forall j ang,
    nth_error (sensor_angles_std l) j = Some ang ->
    exists e d,
      nth_error ends j = Some e /\ nth_error dists j = Some d /\
      reading_ok l m (pos (params c)) (ang + yaw (params c)) e
                 (nth j flags false) d.
Proof.
  unfold make_line.
  destruct (make_line_loop _ _ _ _ _ _) as [st|err] eqn:Hloop; simpl; [|discriminate].
  intro H. injection H as <- <- <-.
  destruct (make_line_loop_spec _ _ _ _ _ _ _ Hloop)
    as [ends [dists [He [Hd [Hle [Hld [Hlen [_ Hread]]]]]]]].
  { intros j _. simpl. rewrite nth_nth_error.
    destruct (nth_error _ j) as [b|] eqn:E; [|reflexivity].
    apply nth_error_In, repeat_spec in E. exact E. }
  simpl in He, Hd, Hlen. rewrite length_map in Hle, Hld.
  rewrite He, Hd, Hlen, repeat_length.
  repeat split; try assumption.
  intros j ang Hj.
  apply (Hread j (ang + yaw (params c))).
  now rewrite nth_error_map, Hj.
Qed.

Lemma min_dist_nonneg (pos_ : point) (points : list point) (d : R) :
  0 <= d -> 0 <= min_dist pos_ points d.
Proof.
  unfold min_dist. revert d.
  induction points as [|q points IH]; intros d Hd; simpl; [exact Hd|].
  apply IH. apply Rmin_glb; [exact Hd|]. unfold distance. apply sqrt_pos.
Qed.

(** X11. Every distance that [make_line] returns lies between 0 and the
    maximum range [line_len]; a ray without a hit reports exactly
    [line_len] and, as its endpoint, the far end of its probe; there is
    one endpoint and one distance per ray and one flag per
    [sensor_num]. *)
Theorem make_line_distances_are_clamped (l : LiDAR) (c : Car) (m : MAP)
  (ends : list point) (flags : list bool) (dists : list R) :
  0 <= line_len l ->
  make_line l c m = Ok (ends, flags, dists) ->
  Forall (fun d => 0 <= d <= line_len l) dists /\
  length ends = length (sensor_angles_std l) /\
  length dists = length (sensor_angles_std l) /\
  length flags = sensor_num l /\
  (forall j ang,
      nth_error (sensor_angles_std l) j = Some ang ->
      nth j flags false = false ->
      nth_error dists j = Some (line_len l) /\
      nth_error ends j
      = Some (fst (probe l (pos (params c)) (ang + yaw (params c))))).
Proof.
  intros Hlen Hml.
  destruct (make_line_rays _ _ _ _ _ _ Hml) as [He [Hd [Hf Hread]]].
  split; [|split; [exact He|split; [exact Hd|split; [exact Hf|]]]].
  - apply Forall_forall. intros d Hin.
    apply In_nth_error in Hin. destruct Hin as [j Hj].
    assert (Hlt : (j < length (sensor_angles_std l))%nat).
    { rewrite <- Hd. apply nth_error_Some. congruence. }
    destruct (nth_error (sensor_angles_std l) j) as [ang|] eqn:Ea.
    2: { apply nth_error_None in Ea. lia. }
    destruct (Hread j ang Ea) as [e [d' [_ [Hd' Hok]]]].
    rewrite Hj in Hd'. injection Hd' as <-.
    unfold reading_ok in Hok.
    destruct (is_collision m _) as [flag points].
    destruct Hok as [_ [Hmiss Hhit]]. destruct flag.
    + destruct (Hhit eq_refl) as [-> _].
      split; [now apply min_dist_nonneg | apply min_dist_le].
    + destruct (Hmiss eq_refl) as [_ ->]. lra.
  - intros j ang Ea Hflag.
    destruct (Hread j ang Ea) as [e [d [He' [Hd' Hok]]]].
    unfold reading_ok in Hok.
    destruct (is_collision m _) as [flag points].
    destruct Hok as [Hh [Hmiss _]]. rewrite Hflag in Hh. subst flag.
    destruct (Hmiss eq_refl) as [-> ->].
    split; [exact Hd' | exact He'].
Qed.

Lemma make_line_distances_are_clamped_witness :
  0 <= line_len lidar_three /\
  make_line lidar_three car_at_origin wall_near
  = Ok ([padd (0, 0) (pscale (0, -1) 30); (5, 0); padd (0, 0) (pscale (0, 1) 30)],
        [false; true; false], [30; 5; 30]) /\
  Forall (fun d => 0 <= d <= line_len lidar_three) [30; 5; 30].
Proof.
  assert (H : 0 <= line_len lidar_three) by (simpl; lra).
  split; [exact H|]. split; [exact make_line_wall_near|].
  exact (proj1 (make_line_distances_are_clamped _ _ _ _ _ _ H make_line_wall_near)).
Defined.

(** ** When [make_line] returns *)

Lemma nearest_keeps_point (pos_ : point) (points : list point) (d : R) (p : point) :
  exists d' p', nearest pos_ points d (Some p) = (d', Some p').
Proof.
  unfold nearest. revert d p.
  induction points as [|q points IH]; intros d p; simpl.
  - now exists d, p.
  - destruct (Rltb (distance pos_ q) d); apply IH.
Qed.

Lemma make_line_loop_total (l : LiDAR) (m : MAP) (pos_ : point) (angs : list R) :
  forall (st : rays) (i : nat) (p : point),
    point_var st = Some p ->
    (i + length angs <= length (line_reaches_wall st))%nat ->
    exists st', make_line_loop l m pos_ st i angs = Ok st'.
Proof.
  induction angs as [|ang angs IH]; intros st i p Hp Hlen; simpl.
  - now exists st.
  - simpl in Hlen. unfold make_line_body.
    destruct (is_collision m _) as [flag points]. destruct flag.
    + destruct (list_set_ok (line_reaches_wall st) i true) as [reaches Hset];
        [lia|].
      rewrite Hset. cbn [bind]. rewrite Hp.
      destruct (nearest_keeps_point pos_ points (line_len l) p) as [d' [p' Hn]].
      rewrite Hn. cbn [bind].
      apply (IH _ (S i) p'); [reflexivity|]. cbn [line_reaches_wall].
      apply list_set_length in Hset. lia.
    + cbn [bind]. eapply (IH _ (S i)); [reflexivity|].
      cbn [line_reaches_wall]. lia.
Qed.

(** X12. For a sensor with as many angles as [sensor_num] (as
    [LiDAR.__init__] builds it), [make_line] fails exactly when the
    first ray is reported as hit while none of its crossing points is
    nearer than [line_len]: then it raises UnboundLocalError; in every
    other case, whatever the later rays meet, it returns. *)
Theorem make_line_fails_only_on_a_far_first_hit (l : LiDAR) (c : Car) (m : MAP) :
  length (sensor_angles_std l) = sensor_num l ->
  match sensor_angles_std l with
  | [] => make_line l c m = Ok ([], [], [])
  | ang :: _ =>
      (far_hit l m (pos (params c)) (ang + yaw (params c)) ->
       make_line l c m = Err UnboundLocalError) /\
      (~ far_hit l m (pos (params c)) (ang + yaw (params c)) ->
       exists ends flags dists, make_line l c m = Ok (ends, flags, dists))
  end.
Proof.
  intro Hlen. unfold make_line, far_hit, probe.
  destruct (sensor_angles_std l) as [|ang angs] eqn:Ea.
  - simpl in Hlen. rewrite <- Hlen. reflexivity.
  - cbn [map make_line_loop]. unfold make_line_body.
    cbn [line_reaches_wall point_var line_end_pos line_distaces].
    destruct (is_collision m _) as [flag points]. cbn [fst snd].
    assert (Hrep : length (repeat false (sensor_num l)) = S (length angs)).
    { rewrite repeat_length, <- Hlen. reflexivity. }
    destruct flag.
    + destruct (list_set_ok (repeat false (sensor_num l)) 0 true) as [reaches Hset];
        [lia|].
      rewrite Hset. cbn [bind]. split.
      * intros [_ Hfar]. now rewrite (nearest_none _ _ _ _ Hfar).
      * intro Hnot.
        destruct (nearer_or_not (pos (params c)) points (line_len l)) as [Hfar|Hnear].
        { elim Hnot. now split. }
        destruct (nearest_some _ _ _ None Hnear) as [q [Hq _]].
        rewrite Hq. cbn [bind].
        match goal with
        | |- context [make_line_loop l m ?ps ?s 1%nat ?a] =>
            destruct (make_line_loop_total l m ps a s 1%nat q) as [st' Hst']
        end.
        { reflexivity. }
        { cbn [line_reaches_wall]. rewrite length_map.
          apply list_set_length in Hset. lia. }
        rewrite Hst'. cbn [bind]. now do 3 eexists.
    + cbn [bind]. split; [intros [H _]; discriminate|].
      intros _.
      match goal with
      | |- context [make_line_loop l m ?ps ?s 1%nat ?a] =>
          destruct (make_line_loop_total l m ps a s 1%nat
                      (padd (pos (params c))
                            (pscale (cos (ang + yaw (params c)),
                                     sin (ang + yaw (params c))) (line_len l))))
            as [st' Hst']
      end.
      { reflexivity. }
      { cbn [line_reaches_wall]. rewrite length_map. lia. }
      rewrite Hst'. cbn [bind]. now do 3 eexists.
Qed.

Lemma make_line_fails_only_on_a_far_first_hit_witness :
  length (sensor_angles_std lidar_three) = sensor_num lidar_three /\
  ~ far_hit lidar_three wall_near (pos (params car_at_origin))
      (- (PI / 2) + yaw (params car_at_origin)) /\
  exists ends flags dists,
    make_line lidar_three car_at_origin wall_near = Ok (ends, flags, dists).
Proof.
  assert (H : length (sensor_angles_std lidar_three) = sensor_num lidar_three)
    by reflexivity.
  assert (Hn : ~ far_hit lidar_three wall_near (pos (params car_at_origin))
                 (- (PI / 2) + yaw (params car_at_origin))).
  { unfold far_hit, probe. destruct car_at_origin_pose as [-> ->].
    rewrite Rplus_0_r, cos_neg, cos_PI2, sin_neg, sin_PI2.
    change (line_len lidar_three) with 30.
    match goal with
    | |- context [is_collision ?mm ?ln] =>
        replace (is_collision mm ln) with (@pair bool (list point) false [])
          by (symmetry; apply wall_near_side)
    end.
    intros [Hf _]. discriminate. }
  split; [exact H|]. split; [exact Hn|].
  exact (proj2 (make_line_fails_only_on_a_far_first_hit
                  lidar_three car_at_origin wall_near H) Hn).
Defined.

(** ** The action table *)

Lemma dot_cons (h w : R) (t u : list R) :
  dot (h :: t) (w :: u) = h * w + dot t u.
Proof. reflexivity. Qed.

Lemma dot_indicator (n k : nat) :
  forall (s : nat) (output : list R),
    dot output (map (fun i => if Nat.eqb i n then 1 else 0) (seq s k))
    = if (s <=? n)%nat && (n <? s + k)%nat then nth (n - s) output 0 else 0.
Proof.
  induction k as [|k IH]; intros s output.
  - simpl seq. simpl map.
    replace (dot output []) with 0 by (destruct output; reflexivity).
    destruct (Nat.leb_spec s n), (Nat.ltb_spec n (s + 0)); simpl;
      try reflexivity; lia.
  - destruct output as [|h t].
    + replace (dot [] _) with 0 by reflexivity.
      destruct (_ && _); [now destruct (n - s)%nat | reflexivity].
    + simpl seq. simpl map. rewrite dot_cons, IH.
      destruct (Nat.eqb_spec s n) as [->|Hne].
      * replace (S n <=? n)%nat with false by (symmetry; apply Nat.leb_gt; lia).
        replace (n <=? n)%nat with true by (symmetry; apply Nat.leb_le; lia).
        replace (n <? n + S k)%nat with true by (symmetry; apply Nat.ltb_lt; lia).
        rewrite Nat.sub_diag. simpl. ring.
      * destruct (Nat.leb_spec (S s) n), (Nat.leb_spec s n),
          (Nat.ltb_spec n (S s + k)), (Nat.ltb_spec n (s + S k));
          simpl; try lia; try ring.
        replace (n - s)%nat with (S (n - S s)) by lia. simpl. ring.
Qed.

Lemma total_indicator (n k : nat) :
  forall s : nat,
    total (map (fun i => if Nat.eqb i n then 1 else 0) (seq s k))
    = if (s <=? n)%nat && (n <? s + k)%nat then 1 else 0.
Proof.
  induction k as [|k IH]; intro s.
  - simpl. destruct (Nat.leb_spec s n), (Nat.ltb_spec n (s + 0)); simpl;
      try reflexivity; lia.
  - simpl seq. simpl map.
    change (total (?h :: ?t)) with (h + total t). rewrite IH.
    destruct (Nat.eqb_spec s n) as [->|Hne].
    + replace (S n <=? n)%nat with false by (symmetry; apply Nat.leb_gt; lia).
      replace (n <=? n)%nat with true by (symmetry; apply Nat.leb_le; lia).
      replace (n <? n + S k)%nat with true by (symmetry; apply Nat.ltb_lt; lia).
      simpl. ring.
    + destruct (Nat.leb_spec (S s) n), (Nat.leb_spec s n),
        (Nat.ltb_spec n (S s + k)), (Nat.ltb_spec n (s + S k));
        simpl; try lia; ring.
Qed.

Lemma deg2rad_steer_step : deg2rad steer_step = PI / 2.
Proof. unfold deg2rad, steer_step. field. Qed.

(** X13. The action table has 25 entries; the index [n] drawn selects
    the direction [n / 5] and the acceleration [n mod 5] of the two
    lists, the steering is the direction times a quarter turn, and [dt]
    is 0.1.  The one-hot vector of [n] has 25 entries that sum to 1, and
    its product with any output vector is the entry [n] of that vector,
    which is what the rollout records as the probability of the action.
    An index outside the table raises. *)
Theorem dicide_action_reads_the_table :
  NUM_ACTIONS = 25%nat /\
  (forall n, (n < NUM_ACTIONS)%nat ->
     exists act,
       dicide_action n = Ok (act, one_hot_of n) /\
       act_steer act = nth (n / 5) direction_list 0 * (PI / 2) /\
       act_a act = nth (n mod 5) acceleration_list 0 /\
       act_dt act = 1 / 10 /\
       - (PI / 2) <= act_steer act <= PI / 2 /\ -1 <= act_a act <= 1) /\
  (forall n, (n < NUM_ACTIONS)%nat ->
     length (one_hot_of n) = 25%nat /\
     total (one_hot_of n) = 1 /\
     forall output : list R, dot output (one_hot_of n) = nth n output 0) /\
  (forall n, (NUM_ACTIONS <= n)%nat -> dicide_action n = Err IndexError).
Proof.
  split; [reflexivity|]. split; [|split].
  - intros n Hn. unfold NUM_ACTIONS in Hn. simpl in Hn.
    pose proof PI_RGT_0 as Hpi.
    do 25 (destruct n as [|n];
           [eexists; split; [reflexivity|]; simpl;
            rewrite deg2rad_steer_step;
            repeat split; try reflexivity; lra|]).
    lia.
  - intros n Hn. unfold NUM_ACTIONS in Hn. simpl in Hn. unfold one_hot_of.
    split; [now rewrite length_map, length_seq|].
    split.
    + rewrite total_indicator.
      replace (0 <=? n)%nat with true by (symmetry; apply Nat.leb_le; lia).
      replace (n <? 0 + NUM_ACTIONS)%nat with true
        by (symmetry; apply Nat.ltb_lt; unfold NUM_ACTIONS; simpl; lia).
      reflexivity.
    + intro output. rewrite dot_indicator.
      replace (0 <=? n)%nat with true by (symmetry; apply Nat.leb_le; lia).
      replace (n <? 0 + NUM_ACTIONS)%nat with true
        by (symmetry; apply Nat.ltb_lt; unfold NUM_ACTIONS; simpl; lia).
      now rewrite Nat.sub_0_r.
  - intros n Hn. unfold dicide_action.
    destruct (nth_error ACTION_LIST n) as [[steer a_]|] eqn:E; [|reflexivity].
    assert (H : nth_error ACTION_LIST n <> None) by congruence.
    apply nth_error_Some in H. unfold NUM_ACTIONS in Hn. lia.
Qed.

Lemma dicide_action_reads_the_table_witness :
  (12 < NUM_ACTIONS)%nat /\
  exists act,
    dicide_action 12 = Ok (act, one_hot_of 12) /\
    act_steer act = nth (12 / 5) direction_list 0 * (PI / 2).
Proof.
  assert (H : (12 < NUM_ACTIONS)%nat) by (unfold NUM_ACTIONS; simpl; lia).
  split; [exact H|].
  destruct (proj1 (proj2 dicide_action_reads_the_table) 12%nat H)
    as [act [H1 [H2 _]]].
  exists act. split; [exact H1 | exact H2].
Defined.

(** ** The rollout ends within its step budget *)

Lemma list_set_err {A : Type} (l : list A) (i : nat) (w : A) (e : error) :
  list_set l i w = Err e -> e = IndexError.
Proof.
  revert i. induction l as [|h t IH]; intros i; simpl.
  - intro H. now injection H as <-.
  - destruct i as [|j]; [discriminate|].
    destruct (list_set t j w) as [t'|e'] eqn:E; simpl; [discriminate|].
    intro H. injection H as <-. now apply (IH j).
Qed.

Lemma make_line_body_err (l : LiDAR) (m : MAP) (pos_ : point) (st : rays)
  (i : nat) (ang : R) (e : error) :
  make_line_body l m pos_ st i ang = Err e -> e <> OutOfFuel.
Proof.
  unfold make_line_body. destruct (is_collision m _) as [flag points].
  destruct flag.
  - destruct (list_set _ i true) as [reaches|e'] eqn:E; cbn [bind].
    + destruct (nearest _ _ _ _) as [d [p|]]; cbn [bind]; [discriminate|].
      intro H. injection H as <-. discriminate.
    + intro H. injection H as <-. apply list_set_err in E. now subst e'.
  - discriminate.
Qed.

Lemma make_line_loop_err (l : LiDAR) (m : MAP) (pos_ : point) (angs : list R) :
  forall (st : rays) (i : nat) (e : error),
    make_line_loop l m pos_ st i angs = Err e -> e <> OutOfFuel.
Proof.
  induction angs as [|ang angs IH]; intros st i e; simpl; [discriminate|].
  destruct (make_line_body l m pos_ st i ang) as [st'|e'] eqn:E; cbn [bind].
  - apply IH.
  - intro H. injection H as <-. now apply make_line_body_err in E.
Qed.

Lemma episode_body_err (max_number_of_steps : nat) (model : list R -> list R)
  (choice : nat -> list R -> nat) (lidar : LiDAR) (Map : MAP)
  (st : rollout) (e : error) :
  episode_body max_number_of_steps model choice lidar Map st = Err e ->
  e <> OutOfFuel.
Proof.
  unfold episode_body, make_line.
  destruct (make_line_loop _ _ _ _ _ _) as [rs|e'] eqn:Eml; cbn [bind].
  2: { intro H. injection H as <-. now apply make_line_loop_err in Eml. }
  unfold dicide_action.
  destruct (nth_error ACTION_LIST _) as [[steer a_]|]; cbn [bind].
  2: { intro H. injection H as <-. discriminate. }
  destruct (step_dis _) as [r|]; [|intro H; injection H as <-; discriminate].
  destruct (dpos _) as [d|]; [|intro H; injection H as <-; discriminate].
  destruct (is_collision Map d) as [flag cp].
  destruct flag.
  - destruct (list_set (pi_list st) _ _) as [pl|e1] eqn:E1; cbn [bind].
    + destruct (list_set (reward_list st) _ _) as [rl|e2] eqn:E2; cbn [bind];
        [discriminate|].
      intro H. injection H as <-. apply list_set_err in E2. now subst e2.
    + intro H. injection H as <-. apply list_set_err in E1. now subst e1.
  - destruct (list_set (pi_list st) _ _) as [pl|e1] eqn:E1; cbn [bind].
    + destruct (list_set (reward_list st) _ _) as [rl|e2] eqn:E2; cbn [bind];
        [discriminate|].
      intro H. injection H as <-. apply list_set_err in E2. now subst e2.
    + intro H. injection H as <-. apply list_set_err in E1. now subst e1.
Qed.

Lemma episode_loop_bounded (max_number_of_steps : nat) (model : list R -> list R)
  (choice : nat -> list R -> nat) (lidar : LiDAR) (Map : MAP) (k : nat) :
  forall (fuel : nat) (st : rollout),
    rollout_inv max_number_of_steps st ->
    ep_done st = false ->
    (length (experiences st) < max_number_of_steps)%nat ->
    (max_number_of_steps - length (experiences st) <= k)%nat ->
    (k <= fuel)%nat ->
    episode_loop max_number_of_steps model choice lidar Map fuel st
    = episode_loop max_number_of_steps model choice lidar Map k st /\
    episode_loop max_number_of_steps model choice lidar Map k st
    <> Err OutOfFuel.
Proof.
  induction k as [|k IH]; intros fuel st Hinv Hnd Hlt Hk Hfuel; [lia|].
  destruct fuel as [|fuel]; [lia|].
  simpl. rewrite Hnd.
  destruct (episode_body max_number_of_steps model choice lidar Map st)
    as [st1|e] eqn:Hbody; cbn [bind].
  2: { split; [reflexivity|]. intro H. injection H as ->.
       now apply episode_body_err in Hbody. }
  pose proof (rollout_inv_body _ _ _ _ _ _ _ Hinv Hnd Hbody) as Hinv1.
  destruct (episode_body_inv _ _ _ _ _ _ _ Hbody)
    as [_ [_ [dists [act [oh [_ [_ [_ [Hexp [Hdone _]]]]]]]]]].
  destruct (ep_done st1) eqn:Hd1.
  - split; [|destruct k; simpl; rewrite Hd1; discriminate].
    destruct fuel, k; simpl; now rewrite Hd1.
  - assert (Hlen1 : length (experiences st1) = S (length (experiences st))).
    { rewrite Hexp, length_app. simpl. lia. }
    assert (Hb : budget_reached max_number_of_steps st = false).
    { unfold step_done in Hdone.
      destruct (budget_reached max_number_of_steps st); congruence. }
    unfold budget_reached in Hb. apply Z.leb_gt in Hb.
    apply IH; try assumption; lia.
Qed.

(** X14. In every map the loop of the rollout makes at most
    [max_number_of_steps] iterations: for a positive budget and every
    bound of at least that many iterations the rollout never runs out of
    the bound (it returns, or stops on an exception of the program), and
    its outcome is the same as with exactly [max_number_of_steps]
    iterations. *)
Theorem rollout_ends_within_the_budget
  (max_number_of_steps : nat) (model : list R -> list R)
  (choice : nat -> list R -> nat) (lidar : LiDAR) (Map : MAP)
  (car : Car) (fuel : nat) :
  (0 < max_number_of_steps)%nat ->
  (max_number_of_steps <= fuel)%nat ->
  episode max_number_of_steps model choice lidar Map fuel car <> Err OutOfFuel /\
  episode max_number_of_steps model choice lidar Map fuel car
  = episode max_number_of_steps model choice lidar Map max_number_of_steps car.
Proof.
  intros Hmax Hfuel. unfold episode.
  assert (Hlt : (length (experiences (episode_start max_number_of_steps car))
                 < max_number_of_steps)%nat) by (simpl; lia).
  assert (Hk : (max_number_of_steps
                - length (experiences (episode_start max_number_of_steps car))
                <= max_number_of_steps)%nat) by (simpl; lia).
  destruct (episode_loop_bounded max_number_of_steps model choice lidar Map
              max_number_of_steps fuel (episode_start max_number_of_steps car)
              (rollout_inv_start max_number_of_steps car) eq_refl Hlt Hk Hfuel)
    as [H1 H2].
  split; [now rewrite H1 | exact H1].
Qed.

Lemma rollout_ends_within_the_budget_witness :
  (0 < max_number_of_steps_ref)%nat /\
  (max_number_of_steps_ref <= 1000)%nat /\
  episode max_number_of_steps_ref uniform_model always_straight lidar_ref
          wall_at_range 1000 car_facing_wall <> Err OutOfFuel.
Proof.
  assert (H1 : (0 < max_number_of_steps_ref)%nat)
    by (unfold max_number_of_steps_ref; lia).
  assert (H2 : (max_number_of_steps_ref <= 1000)%nat)
    by (unfold max_number_of_steps_ref; lia).
  split; [exact H1|]. split; [exact H2|].
  exact (proj1 (rollout_ends_within_the_budget max_number_of_steps_ref
                  uniform_model always_straight lidar_ref wall_at_range
                  car_facing_wall 1000 H1 H2)).
Defined.

(** ** The log of a rollout and the vehicle *)

Lemma episode_loop_preserves (max_number_of_steps : nat)
  (model : list R -> list R) (choice : nat -> list R -> nat)
  (lidar : LiDAR) (Map : MAP) (P : rollout -> Prop) :
  (forall st st',
      P st -> ep_done st = false ->
      episode_body max_number_of_steps model choice lidar Map st = Ok st' ->
      P st') ->
  forall (fuel : nat) (st st' : rollout),
    P st ->
    episode_loop max_number_of_steps model choice lidar Map fuel st = Ok st' ->
    P st'.
Proof.
  intro Hstep. induction fuel as [|fuel IH]; intros st st' HP; simpl.
  - destruct (ep_done st); [|discriminate]. intro H. now injection H as <-.
  - destruct (ep_done st) eqn:Hd; [intro H; now injection H as <-|].
    destruct (episode_body _ _ _ _ _ st) as [st1|e] eqn:Hbody; cbn [bind];
      [|discriminate].
    apply IH. now apply (Hstep st).
Qed.

Lemma drive_history_length (c : Car) (controls : list control) :
  length (h_pos (histories (drive c controls)))
  = (length (h_pos (histories c)) + length controls)%nat.
Proof.
  induction controls as [|u controls IH] using rev_ind.
  - simpl. lia.
  - rewrite drive_snoc, update_histories. unfold params_history_update.
    cbn [h_pos]. rewrite !length_app, IH. simpl. lia.
Qed.

(** X15. The log of a returned rollout replays to the vehicle it leaves
    behind: applying the logged actions in order to the initial vehicle
    gives the final vehicle, whose position history has grown by one
    entry per step.  Every recorded reward is at least 0. *)
Theorem rollout_log_replays_to_the_vehicle
  (max_number_of_steps : nat) (model : list R -> list R)
  (choice : nat -> list R -> nat) (lidar : LiDAR) (Map : MAP)
  (fuel : nat) (car : Car) (st : rollout) :
  well_formed car ->
  episode max_number_of_steps model choice lidar Map fuel car = Ok st ->
  ep_car st = drive car (map control_of (experiences st)) /\
  length (h_pos (histories (ep_car st)))
  = (length (h_pos (histories car)) + ep_step st)%nat /\
  Forall (fun e => 0 <= sd_reward e) (experiences st).
Proof.
  intros Hwf Hep.
  set (P := fun s : rollout =>
              well_formed (ep_car s) /\
              ep_car s = drive car (map control_of (experiences s)) /\
              Forall (fun e => 0 <= sd_reward e) (experiences s)).
  assert (HP0 : P (episode_start max_number_of_steps car)).
  { unfold P. cbn [episode_start ep_car experiences map drive fold_left].
    split; [exact Hwf|]. split; [reflexivity | constructor]. }
  assert (HP : P st).
  { apply (episode_loop_preserves max_number_of_steps model choice lidar Map P)
      with (fuel := fuel) (st := episode_start max_number_of_steps car);
      [|exact HP0 | exact Hep].
    intros s s' [Hw [Hcar Hall]] _ Hbody.
    destruct (episode_body_inv _ _ _ _ _ _ _ Hbody)
      as [_ [_ [dists [act [oh [_ [_ [Hc [Hexp _]]]]]]]]].
    unfold next_car in Hc.
    pose proof (update_step_dis _ (act_a act) (act_steer act) (act_dt act) Hw)
      as Hsd.
    set (r := distance (pos (params (ep_car s)))
                (pos (params (update (ep_car s) (act_a act) (act_steer act)
                                     (act_dt act))))) in *.
    assert (Hr : 0 <= r) by (unfold r, distance; apply sqrt_pos).
    assert (Hrew : 0 <= sd_reward (step_entry max_number_of_steps model Map s
                                               dists act oh)).
    { simpl. unfold step_reward, next_car. rewrite Hsd.
      destruct (collided Map s act); unfold collision_reward; lra. }
    assert (Hctl : control_of (step_entry max_number_of_steps model Map s
                                          dists act oh)
                   = (act_a act, act_steer act, act_dt act)) by reflexivity.
    set (e := step_entry max_number_of_steps model Map s dists act oh) in *.
    unfold P. rewrite Hc, Hexp, !map_app.
    change (map control_of [e]) with [control_of e].
    split; [now apply update_well_formed|].
    split; [now rewrite drive_snoc, <- Hcar, Hctl|].
    apply Forall_app. split; [exact Hall|].
    constructor; [exact Hrew | constructor]. }
  destruct HP as [_ [Hcar Hall]].
  destruct (episode_loop_inv _ _ _ _ _ _ _ _
              (rollout_inv_start max_number_of_steps car) Hep)
    as [[Hstep _ _ _ _ _] _].
  split; [exact Hcar|].
  split; [rewrite Hcar at 1; now rewrite drive_history_length, length_map, Hstep|].
  exact Hall.
Qed.

Lemma rollout_log_replays_to_the_vehicle_witness :
  well_formed car_at_origin /\
  exists st,
    episode max_number_of_steps_ref uniform_model always_straight lidar_ref
            no_walls max_number_of_steps_ref car_at_origin = Ok st /\
    ep_car st = drive car_at_origin (map control_of (experiences st)).
Proof.
  assert (Hwf : well_formed car_at_origin) by apply Car_init_well_formed.
  split; [exact Hwf|].
  destruct (episode_loop_no_walls max_number_of_steps_ref uniform_model
              always_straight lidar_ref no_walls max_number_of_steps_ref
              eq_refl always_straight_valid _
              (rollout_inv_start max_number_of_steps_ref car_at_origin) eq_refl)
    as [st [Hst _]].
  - unfold max_number_of_steps_ref. simpl. lia.
  - unfold max_number_of_steps_ref. simpl. lia.
  - exists st. split; [exact Hst|].
    exact (proj1 (rollout_log_replays_to_the_vehicle _ _ _ _ _ _ _ _ Hwf Hst)).
Defined.

(** ** The objective of the update *)

Lemma clamp_range (p : R) : 1 / 10000000000 <= clamp p <= 1.
Proof.
  unfold clamp.
  destruct (Rltb p (1 / 10000000000)) eqn:E1; [lra|].
  apply Rltb_false in E1.
  destruct (Rltb 1 p) eqn:E2; [lra|]. apply Rltb_false in E2. lra.
Qed.

Lemma ln_clamp_nonpos (p : R) : ln (clamp p) <= 0.
Proof.
  destruct (clamp_range p) as [H1 H2].
  destruct (Req_dec_T (clamp p) 1) as [->|Hne].
  - rewrite ln_1. lra.
  - rewrite <- ln_1. left. apply ln_increasing; lra.
Qed.

(** X16. [torch.clamp(p, 1e-10, 1)] keeps every value between 1e-10 and
    1, changes no value already in that range and none twice; so the
    logarithm in the objective is taken of a positive number only and is
    never positive, and a term of the objective has the sign opposite to
    that of the reward minus the baseline. *)
Theorem clamp_keeps_the_logarithm_defined :
  (forall p : R, 1 / 10000000000 <= clamp p <= 1) /\
  (forall p : R, 1 / 10000000000 <= p <= 1 -> clamp p = p) /\
  (forall p : R, clamp (clamp p) = clamp p) /\
  (forall p : R, 0 < clamp p /\ ln (clamp p) <= 0) /\
  (forall b p r : R,
      (b <= r -> advantage_term b (p, r) <= 0) /\
      (r <= b -> 0 <= advantage_term b (p, r))).
Proof.
  assert (Hid : forall p : R, 1 / 10000000000 <= p <= 1 -> clamp p = p).
  { intros p [H1 H2]. unfold clamp.
    assert (E1 : Rltb p (1 / 10000000000) = false) by (apply Rltb_false; lra).
    assert (E2 : Rltb 1 p = false) by (apply Rltb_false; lra).
    now rewrite E1, E2. }
  split; [exact clamp_range|]. split; [exact Hid|].
  split; [intro p; apply Hid, clamp_range|].
  split.
  - intro p. pose proof (clamp_range p). split; [lra | apply ln_clamp_nonpos].
  - intros b p r. unfold advantage_term. cbn [fst snd].
    pose proof (ln_clamp_nonpos p). split; intro; nra.
Qed.

Lemma clamp_keeps_the_logarithm_defined_witness :
  1 / 10000000000 <= 1 / 2 <= 1 /\ clamp (1 / 2) = 1 / 2.
Proof.
  assert (H : 1 / 10000000000 <= 1 / 2 <= 1) by lra.
  split; [exact H|].
  exact (proj1 (proj2 clamp_keeps_the_logarithm_defined) (1 / 2) H).
Defined.

(** ** A new vehicle *)

Lemma get_param_set_pos (k : pname) (q : point) (p : Params) :
  get_param k (set_pos q p) = get_param k p.
Proof. now destruct k. Qed.

(** X18. [Car.__init__] starts every key at 0 and then takes the
    keyword arguments; ["pos"] is the pair of ["x"] and ["y"], and ["v"]
    is always recomputed from ["vx"] and ["vy"], so a ["v"] given by the
    caller is not kept.  The new vehicle has travelled nothing and has
    no [step_dis] or [dpos] before its first update. *)
Theorem Car_init_takes_the_keyword_arguments (kwargs : dict) :
  NoDup (map fst kwargs) ->
  let c := Car_init kwargs in
  (forall k, k <> Pv ->
             get_param k (params c)
             = match dict_get k kwargs with Some r => r | None => 0 end) /\
  pos (params c) = (x (params c), y (params c)) /\
  v (params c) = sqrt (vx (params c) ^ 2 + vy (params c) ^ 2) /\
  total_dis c = 0 /\ nparams c = [] /\ step_dis c = None /\ dpos c = None.
Proof.
  intros Hnd c. subst c.
  split; [|repeat split; reflexivity].
  intros k Hk. unfold Car_init, params_update. cbn [params fold_left].
  rewrite get_set_param_other by exact Hk.
  rewrite get_param_set_pos, (fold_set_param_get _ _ _ Hnd).
  destruct (dict_get k kwargs); [reflexivity | now destruct k].
Qed.

Lemma Car_init_takes_the_keyword_arguments_witness :
  NoDup (map fst [(Px, 3); (Pv, 100); (Pvx, 4)]) /\
  x (params (Car_init [(Px, 3); (Pv, 100); (Pvx, 4)])) = 3 /\
  v (params (Car_init [(Px, 3); (Pv, 100); (Pvx, 4)]))
  = sqrt (vx (params (Car_init [(Px, 3); (Pv, 100); (Pvx, 4)])) ^ 2
          + vy (params (Car_init [(Px, 3); (Pv, 100); (Pvx, 4)])) ^ 2).
Proof.
  assert (H : NoDup (map fst [(Px, 3); (Pv, 100); (Pvx, 4)])).
  { simpl. repeat constructor; simpl; intuition discriminate. }
  split; [exact H|].
  destruct (Car_init_takes_the_keyword_arguments _ H) as [Hk [_ [Hv _]]].
  split; [|exact Hv].
  exact (Hk Px ltac:(discriminate)).
Defined.

(** ** Rollouts shorter than the budget *)

(** X19. A rollout that returns with fewer steps than
    [max_number_of_steps] ended in a collision: [is_collision] reports
    a crossing of the map by the segment from the position before the
    last logged action to the final position; the last entry of the log
    has the done flag and the collision reward 0, and so has the last
    non-marker entry of the padded reward sequence. *)
Theorem short_rollout_ended_in_a_collision
  (max_number_of_steps : nat) (model : list R -> list R)
  (choice : nat -> list R -> nat) (lidar : LiDAR) (Map : MAP)
  (fuel : nat) (car : Car) (st : rollout) :
  well_formed car ->
  episode max_number_of_steps model choice lidar Map fuel car = Ok st ->
  (ep_step st < max_number_of_steps)%nat ->
  exists pre e,
    experiences st = pre ++ [e] /\
    fst (is_collision Map
           (pos (params (drive car (map control_of pre))),
            pos (params (ep_car st)))) = true /\
    sd_done e = true /\ sd_reward e = 0 /\
    nth_error (reward_list st) (ep_step st - 1) = Some (Some 0).
Proof.
  intros Hwf Hep Hshort.
  set (P := fun s : rollout =>
              well_formed (ep_car s) /\
              ep_car s = drive car (map control_of (experiences s)) /\
              (ep_done s = false \/
               (S (length (experiences s)) <= max_number_of_steps)%nat ->
               forall pre e,
                 experiences s = pre ++ [e] ->
                 sd_done e = true ->
                 sd_reward e = 0 /\
                 fst (is_collision Map
                        (pos (params (drive car (map control_of pre))),
                         pos (params (ep_car s)))) = true)).
  assert (HP : P st).
  { apply (episode_loop_preserves max_number_of_steps model choice lidar Map
             (fun s => rollout_inv max_number_of_steps s /\ P s))
      with (fuel := fuel) (st := episode_start max_number_of_steps car);
      [| split; [apply rollout_inv_start|] | exact Hep].
    - intros s s' [Hinv [Hw [Hcar HPs]]] Hnd Hbody.
      split; [exact (rollout_inv_body max_number_of_steps model choice lidar Map
                       s s' Hinv Hnd Hbody)|].
      destruct (episode_body_inv _ _ _ _ _ _ _ Hbody)
        as [_ [_ [dists [act [oh [_ [_ [Hc [Hexp [Hdone _]]]]]]]]]].
      assert (Hctl : control_of (step_entry max_number_of_steps model Map s
                                            dists act oh)
                     = (act_a act, act_steer act, act_dt act)) by reflexivity.
      unfold P. split; [rewrite Hc; now apply update_well_formed|].
      split.
      { rewrite Hc, Hexp, map_app. unfold next_car.
        change (map control_of [step_entry max_number_of_steps model Map s
                                           dists act oh])
          with [control_of (step_entry max_number_of_steps model Map s
                                       dists act oh)].
        now rewrite drive_snoc, <- Hcar, Hctl. }
      intros Hcond pre e Hsplit He.
      rewrite Hexp in Hsplit. apply app_inj_tail in Hsplit.
      destruct Hsplit as [<- <-].
      cbn [sd_done sd_reward step_entry] in He |- *.
      unfold step_done in He. unfold step_reward.
      destruct (collided Map s act) eqn:Hcol.
      + split; [reflexivity|].
        unfold collided, next_car in Hcol.
        rewrite (update_dpos _ _ _ _ Hw) in Hcol.
        rewrite <- Hcar, Hc. exact Hcol.
      + rewrite Hnd in He.
        destruct (budget_reached max_number_of_steps s) eqn:Hb; [|discriminate].
        unfold budget_reached in Hb. apply Z.leb_le in Hb.
        destruct Hcond as [Hd|Hl].
        * rewrite Hdone in Hd. unfold step_done in Hd.
          assert (Hb' : budget_reached max_number_of_steps s = true)
            by (unfold budget_reached; now apply Z.leb_le).
          rewrite Hb' in Hd. discriminate.
        * rewrite Hexp, length_app in Hl. simpl in Hl. lia.
    - unfold P. cbn [episode_start ep_car experiences map drive fold_left].
      split; [exact Hwf|]. split; [reflexivity|].
      intros _ pre e Hsplit. destruct pre; discriminate. }
  destruct HP as [_ [_ HP]].
  destruct (episode_loop_inv _ _ _ _ _ _ _ _
              (rollout_inv_start max_number_of_steps car) Hep)
    as [[Hstep Hlen _ Hrew _ Hdn] [Hd _]].
  destruct (Hdn Hd) as [pre [e [Hsplit [He _]]]].
  assert (Hc : ep_done st = false \/
               (S (length (experiences st)) <= max_number_of_steps)%nat)
    by (right; lia).
  destruct (HP Hc pre e Hsplit He) as [Hr Hcol].
  exists pre, e. split; [exact Hsplit|]. split; [exact Hcol|].
  split; [exact He|]. split; [exact Hr|].
  rewrite Hrew.
  assert (Hl : (length (map sd_reward (experiences st))
                <= max_number_of_steps)%nat) by (now rewrite length_map).
  destruct (padded_nth _ _ (ep_step st - 1) Hl) as [_ [Hin _]].
  destruct Hin as [r [Hr1 Hr2]].
  { rewrite length_map, Hstep, Hsplit, length_app. simpl. lia. }
  rewrite Hr2. do 2 f_equal.
  rewrite nth_error_map, Hstep, Hsplit in Hr1.
  rewrite length_app in Hr1. simpl in Hr1.
  replace (length pre + 1 - 1)%nat with (length pre) in Hr1 by lia.
  rewrite nth_error_app2, Nat.sub_diag in Hr1 by lia. simpl in Hr1.
  injection Hr1 as <-. exact Hr.
Qed.

Lemma fast_car_rollout :
  exists st,
    episode max_number_of_steps_ref uniform_model always_straight lidar_blind
            wall_ahead 1 fast_car = Ok st /\
    ep_step st = 1%nat.
Proof.
  assert (Hwf : well_formed fast_car) by apply Car_init_well_formed.
  destruct (episode_body_ok max_number_of_steps_ref uniform_model
              always_straight lidar_blind wall_ahead
              (episode_start max_number_of_steps_ref fast_car) [] [] [])
    as [st' Hbody].
  - reflexivity.
  - exact always_straight_valid.
  - apply rollout_inv_start.
  - unfold max_number_of_steps_ref. simpl. lia.
  - destruct (episode_body_inv _ _ _ _ _ _ _ Hbody)
      as [pts [fl [ds [act [oh [_ [Hact [_ [_ [Hdone [Hstep _]]]]]]]]]]].
    unfold always_straight in Hact. rewrite dicide_action_straight in Hact.
    injection Hact as <- <-.
    assert (Hd : ep_done st' = true).
    { rewrite Hdone. unfold step_done, collided, next_car.
      cbn [ep_car episode_start act_a act_steer act_dt].
      rewrite (update_dpos _ _ _ _ Hwf), fast_car_hits_wall. cbn [fst].
      now destruct (budget_reached _ _). }
    exists st'. split; [|exact Hstep].
    unfold episode. cbn [episode_loop]. cbn [episode_start ep_done].
    fold (episode_start max_number_of_steps_ref fast_car).
    rewrite Hbody. cbn [bind]. now rewrite Hd.
Qed.

Lemma short_rollout_ended_in_a_collision_witness :
  well_formed fast_car /\
  exists st,
    episode max_number_of_steps_ref uniform_model always_straight lidar_blind
            wall_ahead 1 fast_car = Ok st /\
    (ep_step st < max_number_of_steps_ref)%nat /\
    exists pre e,
      experiences st = pre ++ [e] /\
      fst (is_collision wall_ahead
             (pos (params (drive fast_car (map control_of pre))),
              pos (params (ep_car st)))) = true /\
      sd_reward e = 0.
Proof.
  assert (Hwf : well_formed fast_car) by apply Car_init_well_formed.
  split; [exact Hwf|].
  destruct fast_car_rollout as [st [Hst Hstep]].
  assert (Hlt : (ep_step st < max_number_of_steps_ref)%nat)
    by (rewrite Hstep; unfold max_number_of_steps_ref; lia).
  exists st. split; [exact Hst|]. split; [exact Hlt|].
  destruct (short_rollout_ended_in_a_collision _ _ _ _ _ _ _ _ Hwf Hst Hlt)
    as [pre [e [H1 [H2 [_ [H3 _]]]]]].
  exists pre, e. split; [exact H1|]. split; [exact H2 | exact H3].
Defined.
